(** * small-shell: a shallow embedding of [small-shell.c] and its properties

    The first part embeds the source file: C strings and the few libc
    routines the shell calls, the [command] structure and [parse], the
    operating system as the shell sees it, the [SIGTSTP] handler,
    [print_status] and [redirect], [check_background], [run] and one
    iteration of [main].  The second part states on lists what the
    specification says of the parser and of the sweep, and the third proves
    how the code relates to it.

    Conventions.
    - A C string is the list of its characters before the terminating NUL.
    - [int] and [pid_t] values are integers of [Z]; the shell does no
      arithmetic on them, so no wrap-around is involved.
    - Everything the process makes observable (text written to standard
      output, system calls, runs of the signal handler) is appended to one
      trace, in program order.
    - A write outside an allocated object is undefined behaviour in C; the
      functions that can perform one return [None] there. *)

From Stdlib Require Import Ascii String DecimalString.
From Stdlib Require Import List ZArith Lia Bool Arith Permutation.
From Equations Require Import Equations.
Import ListNotations.

Set Implicit Arguments.
Open Scope Z_scope.

(** ** C strings *)

Definition cstring := list ascii.

(** String literals: [str "exit"] is the C string [exit]. *)
Definition str (s : string) : cstring := list_ascii_of_string s.
Arguments str s%_string.

Definition NUL : ascii := "000"%char.
Definition LF : ascii := "010"%char.

Definition strlen (s : cstring) : nat := length s.

(** [s[i]]: reading at index [strlen s] yields the terminator. *)
Definition char_at (s : cstring) (i : nat) : ascii := nth i s NUL.

Definition strcat (dst src : cstring) : cstring := dst ++ src.

(** [!strcmp(a, b)] *)
Fixpoint streq (a b : cstring) : bool :=
  match a, b with
  | [], [] => true
  | x :: a', y :: b' => Ascii.eqb x y && streq a' b'
  | _, _ => false
  end.

(** [sprintf(buffer, "%ld", n)] and [printf("%d", n)]: signed decimal. *)
Definition decimal (n : Z) : cstring :=
  list_ascii_of_string (NilZero.string_of_int (Z.to_int n)).

(** *** [strtok_r] *)

Definition is_delim (delim : cstring) (ch : ascii) : bool :=
  existsb (Ascii.eqb ch) delim.

(** [s + strspn(s, delim)] *)
Fixpoint skip_delims (delim s : cstring) : cstring :=
  match s with
  | [] => []
  | ch :: r => if is_delim delim ch then skip_delims delim r else s
  end.

(** The first [strcspn(s, delim)] characters of [s], and what follows. *)
Fixpoint span_token (delim s : cstring) : cstring * cstring :=
  match s with
  | [] => ([], [])
  | ch :: r =>
      if is_delim delim ch then ([], s)
      else let (tok, e) := span_token delim r in (ch :: tok, e)
  end.

(** [strtok_r(NULL, delim, &save)]: [None] is the NULL result; otherwise the
    token and the new value of [save]. *)
Definition strtok_r (delim save : cstring) : option (cstring * cstring) :=
  match skip_delims delim save with
  | [] => None
  | s =>
      let (tok, e) := span_token delim s in
      match e with
      | [] => Some (tok, [])
      | _ :: r => Some (tok, r)
      end
  end.

(** ** Sizes *)

Definition N_ARGS : nat := 512 + 1.
Definition LEN_INPUT : nat := 2048 + 1.
Definition DEV_NULL : cstring := str "/dev/null".

(** ** The parsed command *)

(** [args] holds the non-NULL prefix of the array [args[N_ARGS]]; a NULL
    pointer is [None]. *)
Record command := mk_command {
  args : list cstring;
  input_file : option cstring;
  output_file : option cstring;
  background : Z
}.

Definition create_command : command :=
  {| args := []; input_file := None; output_file := None; background := 0 |}.

(** ** parse *)

Definition inspect {A} (a : A) : {b : A | a = b} := exist _ a eq_refl.

(** The expansion loop of [parse]: [i] is the loop index and [expanded] the
    contents of [expanded_input] so far. *)
Equations? expand_loop (pid : Z) (input : cstring) (i : nat) (expanded : cstring)
  : cstring by wf (strlen input - i)%nat lt :=
  expand_loop pid input i expanded with lt_dec i (strlen input) := {
    | left _ =>
        if Ascii.eqb (char_at input i) "$" && Ascii.eqb (char_at input (i + 1)) "$"
        then expand_loop pid input (i + 1 + 1) (strcat expanded (decimal pid))
        else expand_loop pid input (i + 1) (strcat expanded [char_at input i]);
    | right _ => expanded }.
Proof. all: unfold strlen in *; lia. Qed.

Definition expand (pid : Z) (input : cstring) : cstring :=
  expand_loop pid input 0 [].

(** [expanded_input[i] = ' '] *)
Fixpoint set_char (s : cstring) (i : nat) (ch : ascii) : cstring :=
  match s, i with
  | [], _ => []
  | _ :: r, O => ch :: r
  | x :: r, S j => x :: set_char r j ch
  end.

(** The locals of the tokenizing loop; [arg_n] is [length (args cmd)].
    [printed] collects what the loop writes to standard output. *)
Record pstate := mk_pstate {
  cmd : command;
  mode : Z;
  printed : list cstring
}.

Definition set_args (c : command) (a : list cstring) : command :=
  {| args := a; input_file := input_file c; output_file := output_file c;
     background := background c |}.
Definition set_input_file (c : command) (f : cstring) : command :=
  {| args := args c; input_file := Some f; output_file := output_file c;
     background := background c |}.
Definition set_output_file (c : command) (f : cstring) : command :=
  {| args := args c; input_file := input_file c; output_file := Some f;
     background := background c |}.
Definition set_background (c : command) (b : Z) : command :=
  {| args := args c; input_file := input_file c; output_file := output_file c;
     background := b |}.

(** The body of the [while] loop, for one token.  Storing into
    [args[arg_n]] with [arg_n >= N_ARGS] is out of bounds. *)
Definition parse_token (st : pstate) (token : cstring) : option pstate :=
  if streq token (str "<") then Some (mk_pstate (cmd st) 1 (printed st))
  else if streq token (str ">") then Some (mk_pstate (cmd st) 2 (printed st))
  else if mode st =? 0 then
    if (length (args (cmd st)) <? N_ARGS)%nat
    then Some (mk_pstate (set_args (cmd st) (args (cmd st) ++ [token]))
                         (mode st) (printed st))
    else None
  else if mode st =? 1 then
    Some (mk_pstate (set_input_file (cmd st) token) (mode st) (printed st))
  else if mode st =? 2 then
    Some (mk_pstate (set_output_file (cmd st) token) (mode st) (printed st))
  else
    Some (mk_pstate (cmd st) (mode st)
                    (printed st ++ [str "Error parsing input" ++ [LF]])).

Equations parse_loop (delim save : cstring) (st : pstate)
  : option pstate by wf (length save) lt :=
  parse_loop delim save st with inspect (strtok_r delim save) := {
    | exist _ None _ => Some st
    | exist _ (Some (token, rest)) H with parse_token st token := {
        | Some st' => parse_loop delim rest st'
        | None => None } }.
Next Obligation.
  (* each call of [strtok_r] consumes at least the token it returns *)
  match goal with H : strtok_r _ _ = Some _ |- _ => revert H end.
  unfold strtok_r.
  assert (Hskip : forall s, (length (skip_delims delim s) <= length s)%nat).
  { induction s as [|ch r IH]; simpl; [lia|].
    destruct (is_delim delim ch); simpl; lia. }
  assert (Hspan : forall s tk e, span_token delim s = (tk, e) ->
                                 (length e <= length s)%nat).
  { induction s as [|ch r IH]; simpl; intros tk e H.
    - inversion H; simpl; lia.
    - destruct (is_delim delim ch).
      + inversion H; simpl; lia.
      + destruct (span_token delim r) as [t' e'] eqn:E. inversion H; subst.
        specialize (IH _ _ eq_refl). lia. }
  assert (Hhead : forall s, match skip_delims delim s with
                            | [] => True
                            | ch :: _ => is_delim delim ch = false
                            end).
  { induction s as [|ch r IH]; simpl; [exact I|].
    destruct (is_delim delim ch) eqn:E; [exact IH | exact E]. }
  specialize (Hskip save). specialize (Hhead save).
  destruct (skip_delims delim save) as [|ch s] eqn:Es; [discriminate|].
  simpl. rewrite Hhead.
  destruct (span_token delim s) as [t' e'] eqn:E.
  apply Hspan in E. simpl in Hskip.
  destruct e' as [|x r]; intros H; inversion H; subst; simpl in *; lia.
Qed.

(** [parse] from the point where [expanded_input] is complete.  The buffer
    was allocated with [LEN_INPUT] bytes, so a longer expansion was written
    past its end.  The result pairs the command with what was printed. *)
Definition parse_expanded (bg : Z) (expanded_input : cstring)
  : option (command * list cstring) :=
  if (LEN_INPUT <=? strlen expanded_input)%nat then None
  else
    let i := Z.of_nat (strlen expanded_input) - 2 in
    let marked :=
      (0 <=? i) && Ascii.eqb (char_at expanded_input (Z.to_nat i)) "&" in
    let command :=
      if marked then set_background create_command bg else create_command in
    let expanded_input :=
      if marked then set_char expanded_input (Z.to_nat i) " "
      else expanded_input in
    match parse_loop (str " " ++ [LF]) expanded_input
                     (mk_pstate command 0 []) with
    | Some st => Some (cmd st, printed st)
    | None => None
    end.

(** [parse], with the global [background] and [getpid()] as arguments. *)
Definition parse_full (bg pid : Z) (input : cstring)
  : option (command * list cstring) :=
  if Ascii.eqb (char_at input 0) "#" then Some (create_command, [])
  else parse_expanded bg (expand pid input).

Definition parse (bg pid : Z) (input : cstring) : option command :=
  option_map fst (parse_full bg pid input).


(** ** The operating system *)

(** Constants of the system headers (Linux values). *)
Definition STDOUT_FILENO : Z := 1.
Definition SIGINT : Z := 2.
Definition SIGKILL : Z := 9.
Definition SIGTSTP : Z := 20.
Definition SIG_BLOCK : Z := 0.
Definition SIG_UNBLOCK : Z := 1.
Definition WNOHANG : Z := 1.
Definition O_RDONLY : Z := 0.
Definition O_WRONLY : Z := 1.
Definition O_CREAT : Z := 64.

Inductive disposition := SIG_DFL | SIG_IGN | Handle_sigtstp.

(** What the process does that can be seen from outside, and the runs of
    its signal handler. *)
Inductive event :=
| Write (text : cstring)
| Handler (signo : Z)
| Fork (ret : Z)
| Sigprocmask (how signo : Z)
| Waitpid (pid options ret : Z)
| Sigaction (signo : Z) (d : disposition)
| Chdir (path : option cstring)
| Open (path : cstring) (flags ret : Z)
| Dup2 (fd fd2 ret : Z)
| Execvp (file : cstring) (argv : list cstring)
| Kill (pid signo : Z).

(** The system calls, as transitions of a kernel state [K].  [k_waitpid]
    returns the call's result and the value stored through the status
    pointer, if one was stored; [k_execvp] tells whether the program image
    was replaced. *)
Record posix (K : Type) := mk_posix {
  k_getpid : K -> Z;
  k_fork : K -> K * Z;
  k_waitpid : K -> Z -> Z -> K * (Z * option Z);
  k_open : K -> cstring -> Z -> Z -> K * Z;
  k_dup2 : K -> Z -> Z -> K * Z;
  k_execvp : K -> cstring -> list cstring -> bool;
  k_getenv : K -> cstring -> option cstring;
  k_chdir : K -> option cstring -> K;
  k_kill : K -> Z -> Z -> K
}.

(** The macros of [<sys/wait.h>] that decode a wait status. *)
Record wait_macros := mk_wait_macros {
  WIFEXITED : Z -> bool;
  WEXITSTATUS : Z -> Z;
  WIFSIGNALED : Z -> bool;
  WTERMSIG : Z -> Z
}.

(** Their definitions in glibc's [bits/waitstatus.h]. *)
Definition signed_char (x : Z) : Z :=
  let y := x mod 256 in if y <? 128 then y else y - 256.

Definition glibc : wait_macros :=
  {| WEXITSTATUS := fun s => Z.shiftr (Z.land s 65280) 8;
     WTERMSIG := fun s => Z.land s 127;
     WIFEXITED := fun s => Z.land s 127 =? 0;
     WIFSIGNALED := fun s =>
       0 <? Z.shiftr (signed_char (Z.land s 127 + 1)) 1 |}.

(** ** The linked list in memory *)

(** [struct background_pids]; a pointer is an address or NULL ([None]). *)
Record node := mk_node {
  pid : Z;
  next : option nat
}.

(** The heap holds a node at each allocated address. *)
Definition heap := nat -> option node.

Definition store (h : heap) (a : nat) (v : option node) : heap :=
  fun b => if Nat.eqb b a then v else h b.

(** ** The state of the shell process *)

(** [background] is the global variable; [status] and [background_pids] are
    the locals of [main] that [run] receives by address; [blocked] and
    [pending] are the kernel's mask and pending bits for [SIGTSTP]. *)
Module Shell.
Record state (K : Type) := mk {
  background : Z;
  status : Z;
  background_pids : list Z;
  blocked : bool;
  pending : bool;
  trace : list event;
  kernel : K
}.
End Shell.

Section Process.
Context {K : Type} (P : posix K) (W : wait_macros).

Local Abbreviation state := (Shell.state K).

Definition with_background (s : state) (v : Z) : state :=
  Shell.mk v (Shell.status s) (Shell.background_pids s) (Shell.blocked s)
    (Shell.pending s) (Shell.trace s) (Shell.kernel s).
Definition with_status (s : state) (v : Z) : state :=
  Shell.mk (Shell.background s) v (Shell.background_pids s) (Shell.blocked s)
    (Shell.pending s) (Shell.trace s) (Shell.kernel s).
Definition with_background_pids (s : state) (v : list Z) : state :=
  Shell.mk (Shell.background s) (Shell.status s) v (Shell.blocked s)
    (Shell.pending s) (Shell.trace s) (Shell.kernel s).
Definition with_blocked (s : state) (v : bool) : state :=
  Shell.mk (Shell.background s) (Shell.status s) (Shell.background_pids s) v
    (Shell.pending s) (Shell.trace s) (Shell.kernel s).
Definition with_pending (s : state) (v : bool) : state :=
  Shell.mk (Shell.background s) (Shell.status s) (Shell.background_pids s)
    (Shell.blocked s) v (Shell.trace s) (Shell.kernel s).
Definition with_kernel (s : state) (v : K) : state :=
  Shell.mk (Shell.background s) (Shell.status s) (Shell.background_pids s)
    (Shell.blocked s) (Shell.pending s) (Shell.trace s) v.
Definition log (s : state) (e : event) : state :=
  Shell.mk (Shell.background s) (Shell.status s) (Shell.background_pids s)
    (Shell.blocked s) (Shell.pending s) (Shell.trace s ++ [e]) (Shell.kernel s).

(** The text on standard output. *)
Fixpoint stdout (tr : list event) : cstring :=
  match tr with
  | [] => []
  | Write text :: tr' => text ++ stdout tr'
  | _ :: tr' => stdout tr'
  end.

(** [printf(...)] together with the [fflush(stdout)] that follows it. *)
Definition printf (text : cstring) (s : state) : state := log s (Write text).

(** [write(STDOUT_FILENO, buf, count)] *)
Definition write (buf : cstring) (count : nat) (s : state) : state :=
  log s (Write (firstn count buf)).

(** *** The signal handler *)

(** [!x] on an [int] *)
Definition lnot (x : Z) : Z := if x =? 0 then 1 else 0.

Definition handle_sigtstp (signo : Z) (s : state) : state :=
  let s := with_background s (lnot (Shell.background s)) in
  if negb (Shell.background s =? 0)
  then write ([LF] ++ str "Exiting foreground-only mode" ++ [LF]) 30 s
  else write ([LF] ++ str "Entering foreground-only mode (& is now ignored)"
                ++ [LF]) 50 s.

(** The kernel side of [SIGTSTP], whose disposition in the shell is
    [handle_sigtstp]: a blocked signal stays pending (once, whatever the
    number of arrivals), any other runs the handler. *)
Definition deliver_sigtstp (s : state) : state :=
  handle_sigtstp SIGTSTP (log s (Handler SIGTSTP)).

Definition sigtstp_arrives (s : state) : state :=
  if Shell.blocked s then with_pending s true else deliver_sigtstp s.

(** [sigprocmask(how, &sigtstp, NULL)] with [SIGTSTP] in the set: a signal
    that is pending when it gets unblocked is delivered before the call
    returns. *)
Definition sigprocmask (how : Z) (s : state) : state :=
  let s := log s (Sigprocmask how SIGTSTP) in
  if how =? SIG_BLOCK then with_blocked s true
  else if how =? SIG_UNBLOCK then
    let s := with_blocked s false in
    if Shell.pending s then deliver_sigtstp (with_pending s false) else s
  else s.

(** [register_signal_handler] *)
Definition register_signal_handler (signal : Z) (handler : disposition)
  (s : state) : state := log s (Sigaction signal handler).

(** *** print_status and redirect *)

Definition print_status (status : Z) (s : state) : state :=
  if WIFEXITED W status
  then printf (str "exit value " ++ decimal (WEXITSTATUS W status) ++ [LF]) s
  else printf (str "terminated by signal " ++ decimal (WTERMSIG W status)
                 ++ [LF]) s.

(** The [int* status] argument is [Shell.status]. *)
Definition redirect (file_name : cstring) (flag : Z) (error : cstring)
  (s : state) : Z * state :=
  let (k, file_descriptor) := k_open P (Shell.kernel s) file_name flag 511 in
  let s := log (with_kernel s k) (Open file_name flag file_descriptor) in
  if file_descriptor =? -1 then
    let s := printf (str "bash: " ++ file_name
                       ++ str ": No such file or directory" ++ [LF]) s in
    (1, with_status s 1)
  else
    let fd2 := if flag =? Z.lor O_WRONLY O_CREAT then 1 else 0 in
    let (k, r) := k_dup2 P (Shell.kernel s) file_descriptor fd2 in
    let s := log (with_kernel s k) (Dup2 file_descriptor fd2 r) in
    if r =? -1
    then (1, printf (str "Error redirecting " ++ error ++ [LF]) s)
    else (0, s).

(** *** The registry of background children *)

Definition insert_pid (background_pids : list Z) (pid : Z) : list Z :=
  pid :: background_pids.

(** Kills from the last node to the first. *)
Fixpoint free_background_pids (background_pids : list Z) (s : state) : state :=
  match background_pids with
  | [] => s
  | pid :: next =>
      let s := free_background_pids next s in
      log (with_kernel s (k_kill P (Shell.kernel s) pid SIGKILL))
          (Kill pid SIGKILL)
  end.

(** [waitpid(pid, &status, options)]: the call's result and the new value
    of the variable [status] points to. *)
Definition waitpid (pid : Z) (status : Z) (options : Z) (s : state)
  : Z * Z * state :=
  let '(k, (result, stored)) := k_waitpid P (Shell.kernel s) pid options in
  let s := log (with_kernel s k) (Waitpid pid options result) in
  (result, match stored with Some v => v | None => status end, s).

(** The loop of [check_background] on the list of the identifiers the
    nodes hold.  [kept] lists the nodes from [head] to [previous]
    ([previous] is NULL when [kept] is empty), [cur] the nodes from
    [background_pids] on, [status] the local variable.  The loop on the
    nodes in memory is [check_background_mem] below. *)
Fixpoint check_loop (kept cur : list Z) (status : Z) (s : state)
  : list Z * state :=
  match cur with
  | [] => (kept, s)
  | pid :: next =>
      let '(result, status, s) := waitpid pid status WNOHANG s in
      if negb (result =? 0) then
        let s := printf (str "background pid " ++ decimal pid
                           ++ str " is done: ") s in
        let s := print_status status s in
        match kept with
        | _ :: _ =>
            (* previous->next = background_pids->next;
               background_pids = previous; then the common advance *)
            check_loop kept next status s
        | [] =>
            (* head = background_pids->next; background_pids = head;
               then previous = background_pids and the advance past it *)
            match next with
            | [] => ([], s)
            | pid' :: next' => check_loop [pid'] next' status s
            end
        end
      else check_loop (kept ++ [pid]) next status s
  end.

(** [indeterminate] is the value the uninitialised local [status] holds. *)
Definition check_background (indeterminate : Z) (background_pids : list Z)
  (s : state) : list Z * state :=
  check_loop [] background_pids indeterminate s.

(** [check_background] on the nodes themselves.  [fuel] bounds the number of
    turns of the loop; [None] when it runs out or a pointer that addresses no
    node is followed.  The result is the new [head] and the heap. *)
Fixpoint check_background_mem (fuel : nat) (h : heap)
  (head previous background_pids : option nat) (status : Z) (s : state)
  : option (option nat * heap * state) :=
  match fuel with
  | O => None
  | S fuel =>
      match background_pids with
      | None => Some (head, h, s)
      | Some a =>
          match h a with
          | None => None
          | Some n =>
              let '(result, status, s) := waitpid (pid n) status WNOHANG s in
              let removed :=
                if negb (result =? 0) then
                  let s := printf (str "background pid " ++ decimal (pid n)
                                     ++ str " is done: ") s in
                  let s := print_status status s in
                  match previous with
                  | Some p =>
                      match h p with
                      | None => None
                      | Some np =>
                          (* previous->next = background_pids->next;
                             free(background_pids);
                             background_pids = previous; *)
                          let h := store h p (Some (mk_node (pid np) (next n))) in
                          let h := store h a None in
                          Some (h, head, Some p, s)
                      end
                  | None =>
                      (* head = background_pids->next;
                         free(background_pids);
                         background_pids = head; *)
                      let h := store h a None in
                      Some (h, next n, next n, s)
                  end
                else Some (h, head, Some a, s) in
              match removed with
              | None => None
              | Some (h, head, background_pids, s) =>
                  (* previous = background_pids;
                     if (background_pids)
                       background_pids = background_pids->next; *)
                  match background_pids with
                  | None =>
                      check_background_mem fuel h head None None status s
                  | Some b =>
                      match h b with
                      | None => None
                      | Some nb =>
                          check_background_mem fuel h head (Some b) (next nb)
                            status s
                      end
                  end
              end
          end
      end
  end.

(** *** run *)

Inductive outcome :=
| Returns (value : Z)      (* [return value;] *)
| Exits (code : Z)         (* [exit(code);] *)
| Replaced.                (* [execvp] succeeded *)

(** The parent's handling of a foreground child, one action per
    statement. *)
Inductive fg_action := Block | Wait (child_pid : Z) | Report | Unblock.

Definition do_action (a : fg_action) (s : state) : state :=
  match a with
  | Block => sigprocmask SIG_BLOCK s
  | Wait child_pid =>
      let '(_, status, s) := waitpid child_pid (Shell.status s) 0 s in
      with_status s status
  | Report =>
      if WIFSIGNALED W (Shell.status s) then print_status (Shell.status s) s
      else s
  | Unblock => sigprocmask SIG_UNBLOCK s
  end.

Definition foreground (child_pid : Z) : list fg_action :=
  [Block; Wait child_pid; Report; Unblock].

Definition do_actions (acts : list fg_action) (s : state) : state :=
  fold_left (fun s a => do_action a s) acts s.

(** [case 0] of the [switch]: the child. *)
Definition run_child (command : command) (s : state) : outcome * state :=
  let s := register_signal_handler SIGTSTP SIG_IGN s in
  let (command, s) :=
    if negb (background command =? 0) then
      let command :=
        match input_file command with
        | None => set_input_file command DEV_NULL
        | Some _ => command
        end in
      let command :=
        match output_file command with
        | None => set_output_file command DEV_NULL
        | Some _ => command
        end in
      (command, s)
    else (command, register_signal_handler SIGINT SIG_DFL s) in
  let (failed, s) :=
    match input_file command with
    | Some f => redirect f O_RDONLY (str "input") s
    | None => (0, s)
    end in
  if negb (failed =? 0) then (Exits 1, s)
  else
    let (failed, s) :=
      match output_file command with
      | Some f => redirect f (Z.lor O_WRONLY O_CREAT) (str "output") s
      | None => (0, s)
      end in
    if negb (failed =? 0) then (Exits 1, s)
    else
      let file := hd [] (args command) in
      let s := log s (Execvp file (args command)) in
      if k_execvp P (Shell.kernel s) file (args command) then (Replaced, s)
      else
        (Exits 1,
         printf (str "bash: " ++ file ++ str ": Command not found" ++ [LF]) s).

Definition run (command : command) (s : state) : outcome * state :=
  match args command with
  | [] => (Returns 1, s)
  | arg0 :: rest =>
      if streq arg0 (str "exit") then (Returns 0, s)
      else if streq arg0 (str "cd") then
        let path :=
          match rest with
          | arg1 :: _ => Some arg1
          | [] => k_getenv P (Shell.kernel s) (str "HOME")
          end in
        (Returns 1,
         log (with_kernel s (k_chdir P (Shell.kernel s) path)) (Chdir path))
      else if streq arg0 (str "status")
      then (Returns 1, print_status (Shell.status s) s)
      else
        let (k, child_pid) := k_fork P (Shell.kernel s) in
        let s := log (with_kernel s k) (Fork child_pid) in
        if child_pid =? -1
        then (Returns 1, printf (str "Error forking process" ++ [LF]) s)
        else if child_pid =? 0 then run_child command s
        else if negb (background command =? 0) then
          let s := with_background_pids s
                     (insert_pid (Shell.background_pids s) child_pid) in
          (Returns 1,
           printf (str "background pid is " ++ decimal child_pid ++ [LF]) s)
        else (Returns 1, do_actions (foreground child_pid) s)
  end.

(** *** Signals arriving while the parent handles a foreground child *)

(** A configuration is the statements still to run and the state; a step
    runs the next statement, or a [SIGTSTP] arrives. *)
Inductive fg_step : list fg_action * state -> list fg_action * state -> Prop :=
| step_action a acts s : fg_step (a :: acts, s) (acts, do_action a s)
| step_signal acts s : fg_step (acts, s) (acts, sigtstp_arrives s).

Inductive fg_steps : list fg_action * state -> list fg_action * state -> Prop :=
| steps_refl cfg : fg_steps cfg cfg
| steps_step cfg1 cfg2 cfg3 :
    fg_step cfg1 cfg2 -> fg_steps cfg2 cfg3 -> fg_steps cfg1 cfg3.

(** *** main *)

(** One turn of the [while] loop of [main], [line] being what [fgets]
    stored in [input]; the result is the new value of [running].  [None]
    when [parse] wrote out of bounds. *)
Definition main_iteration (indeterminate : Z) (line : cstring) (s : state)
  : option (outcome * state) :=
  let (pids, s) := check_background indeterminate (Shell.background_pids s) s in
  let s := with_background_pids s pids in
  let s := printf (str ": ") s in
  match parse (Shell.background s) (k_getpid P (Shell.kernel s)) line with
  | Some command => Some (run command s)
  | None => None
  end.
End Process.

(** ** The parser, stated on lists *)

(** The substitution as the specification words it: one pass from the left,
    each pair [$$] replaced by [text], every other character kept. *)
Fixpoint substitute_pid (text line : cstring) : cstring :=
  match line with
  | [] => []
  | ch :: rest =>
      match rest with
      | ch' :: rest' =>
          if Ascii.eqb ch "$" && Ascii.eqb ch' "$"
          then text ++ substitute_pid text rest'
          else ch :: substitute_pid text rest
      | [] => [ch]
      end
  end.

(** The tokens [strtok_r] hands out, in order. *)
Fixpoint split_tokens (delim : cstring) (cur : cstring) (s : cstring)
  : list cstring :=
  match s with
  | [] => match cur with [] => [] | _ => [cur] end
  | ch :: r =>
      if is_delim delim ch
      then match cur with
           | [] => split_tokens delim [] r
           | _ => cur :: split_tokens delim [] r
           end
      else split_tokens delim (cur ++ [ch]) r
  end.

Definition tokens (delim s : cstring) : list cstring := split_tokens delim [] s.

(** The tokenizing loop over a list of tokens. *)
Fixpoint parse_tokens (toks : list cstring) (st : pstate) : option pstate :=
  match toks with
  | [] => Some st
  | token :: rest =>
      match parse_token st token with
      | Some st' => parse_tokens rest st'
      | None => None
      end
  end.

(** *** The three-state walk *)

Inductive parse_mode := ARG | EXPECT_IN | EXPECT_OUT.

Definition mode_code (m : parse_mode) : Z :=
  match m with ARG => 0 | EXPECT_IN => 1 | EXPECT_OUT => 2 end.

(** One token of the semantic pass as the specification describes it.
    [returns] tells whether the mode goes back to [ARG] once a file name has
    been stored: the specification says it does. *)
Definition walk_token (returns : bool) (mc : parse_mode * command)
  (token : cstring) : parse_mode * command :=
  let (m, c0) := mc in
  if streq token (str "<") then (EXPECT_IN, c0)
  else if streq token (str ">") then (EXPECT_OUT, c0)
  else match m with
       | ARG => (ARG, set_args c0 (args c0 ++ [token]))
       | EXPECT_IN =>
           (if returns then ARG else EXPECT_IN, set_input_file c0 token)
       | EXPECT_OUT =>
           (if returns then ARG else EXPECT_OUT, set_output_file c0 token)
       end.

Definition walk (returns : bool) (toks : list cstring)
  (mc : parse_mode * command) : parse_mode * command :=
  fold_left (walk_token returns) toks mc.

Definition whitespace : cstring := str " " ++ [LF].

Definition finish (r : option pstate) : option (command * list cstring) :=
  match r with
  | Some st => Some (cmd st, printed st)
  | None => None
  end.


(** Tokens are non-empty and free of delimiters. *)
Definition clean_token (delim t : cstring) : Prop :=
  t <> [] /\ forall ch, In ch t -> is_delim delim ch = false.

(** The background marker on lists: the line with its second to last
    character blanked when that character is [&]. *)
Definition strip_marker (e : cstring) : bool * cstring :=
  let n := (length e - 2)%nat in
  match skipn n e with
  | [ch; last] =>
      if Ascii.eqb ch "&" then (true, firstn n e ++ [" "%char; last])
      else (false, e)
  | _ => (false, e)
  end.

(** The command the walk builds from an expanded line. *)
Definition plan (bg : Z) (e : cstring) : command :=
  let (marked, line) := strip_marker e in
  snd (walk false (tokens whitespace line)
         (ARG, if marked then set_background create_command bg
               else create_command)).

Definition is_redirect (token : cstring) : bool :=
  streq token (str "<") || streq token (str ">").

(** The tokens that precede the first redirection operator. *)
Fixpoint leading_args (toks : list cstring) : list cstring :=
  match toks with
  | [] => []
  | t :: rest => if is_redirect t then [] else t :: leading_args rest
  end.

(** The first character of a line that is neither a space nor a newline. *)
Definition first_non_whitespace (line : cstring) : option ascii :=
  hd_error (skip_delims whitespace line).

(** Occurrences of a character. *)
Definition count_char (ch : ascii) (s : cstring) : nat :=
  length (filter (Ascii.eqb ch) s).

(** No two adjacent [$]. *)
Fixpoint no_pair (s : cstring) : Prop :=
  match s with
  | [] => True
  | ch :: rest =>
      match rest with
      | [] => True
      | ch' :: _ => ~ (ch = "$"%char /\ ch' = "$"%char) /\ no_pair rest
      end
  end.

(** ** Vocabulary for the process properties *)

Definition entering_banner : cstring :=
  [LF] ++ str "Entering foreground-only mode (& is now ignored)" ++ [LF].
Definition exiting_banner : cstring :=
  [LF] ++ str "Exiting foreground-only mode" ++ [LF].

(** The foreground-only flag is the negation of the global [background]. *)
Definition foreground_only {K} (s : Shell.state K) : bool :=
  Shell.background s =? 0.

(** How many times the handler has run. *)
Definition handler_runs (tr : list event) : nat :=
  length (filter (fun e => match e with Handler _ => true | _ => false end) tr).

(** The process identifiers [waitpid] was called on. *)
Fixpoint waited (tr : list event) : list Z :=
  match tr with
  | [] => []
  | Waitpid pid _ _ :: tr' => pid :: waited tr'
  | _ :: tr' => waited tr'
  end.

(** A kernel that answers every call the same way: [fork] returns
    [fork_ret], [open] returns [open_ret], [waitpid] returns the identifier
    it was given and stores [wait_status]. *)
Definition scripted (fork_ret open_ret wait_status : Z) : posix unit :=
  {| k_getpid := fun _ => 4242;
     k_fork := fun k => (k, fork_ret);
     k_waitpid := fun k pid _ => (k, (pid, Some wait_status));
     k_open := fun k _ _ _ => (k, open_ret);
     k_dup2 := fun k _ fd2 => (k, fd2);
     k_execvp := fun _ _ _ => false;
     k_getenv := fun _ _ => None;
     k_chdir := fun k _ => k;
     k_kill := fun k _ _ => k |}.

(** The shell as [main] starts it. *)
Definition initial : Shell.state unit :=
  Shell.mk 1 0 [] false false [] tt.

Section Sweep.
Context {K : Type} (P : posix K) (W : wait_macros).

(** The sweep as the specification describes it: every identifier is
    waited for, in order; the ones whose wait returns non-zero are announced
    and dropped, the others kept. *)
Fixpoint reap_all (cur : list Z) (status : Z) (s : Shell.state K)
  : list Z * Shell.state K :=
  match cur with
  | [] => ([], s)
  | pid :: next =>
      let '(result, status, s) := waitpid P pid status WNOHANG s in
      if negb (result =? 0) then
        reap_all next status
          (print_status W status
             (printf (str "background pid " ++ decimal pid ++ str " is done: ") s))
      else
        let (l, s') := reap_all next status s in (pid :: l, s')
  end.
End Sweep.

(** A command that is neither empty nor a built-in. *)
Definition is_external (command : command) : bool :=
  match args command with
  | [] => false
  | arg0 :: _ =>
      negb (streq arg0 (str "exit") || streq arg0 (str "cd")
            || streq arg0 (str "status"))
  end.

Definition not_unblock (a : fg_action) : Prop :=
  match a with Unblock => False | _ => True end.

(** How many [Unblock] statements a program still holds. *)
Definition unblocks (acts : list fg_action) : nat :=
  length (filter (fun a => match a with Unblock => true | _ => false end) acts).

(** The nodes at addresses [map fst cells], holding [map snd cells], linked
    from [p] to [q]. *)
Fixpoint chain (h : heap) (p : option nat) (cells : list (nat * Z))
  (q : option nat) : Prop :=
  match cells with
  | [] => p = q
  | (a, x) :: cells' =>
      p = Some a /\ exists n, h a = Some (mk_node x n) /\ chain h n cells' q
  end.

(** A registry of two nodes: 102 at address 1, then 101 at address 2. *)
Definition two_nodes : heap :=
  store (store (fun _ => None) 2 (Some (mk_node 101 None)))
        1 (Some (mk_node 102 (Some 2%nat))).

(** ** Vocabulary for further properties *)

(** Words joined by single spaces. *)
Fixpoint unwords (ws : list cstring) : cstring :=
  match ws with
  | [] => []
  | w :: rest =>
      match rest with
      | [] => w
      | _ :: _ => w ++ " "%char :: unwords rest
      end
  end.

(** [n] copies of a string, one after the other. *)
Definition replicate (n : nat) (s : cstring) : cstring := concat (repeat s n).

(** [f] is a token that is no operator and comes after a token [op]. *)
Definition names_after (op : cstring) (toks : list cstring) (f : cstring)
  : Prop :=
  exists before after,
    toks = before ++ op :: after /\ In f after /\ is_redirect f = false.

(** The events a run of the process adds to its trace. *)
Definition new_events {K} (s s' : Shell.state K) : list event :=
  skipn (length (Shell.trace s)) (Shell.trace s').

(** The process identifiers whose wait returned non-zero. *)
Fixpoint reaped (tr : list event) : list Z :=
  match tr with
  | [] => []
  | Waitpid pid _ ret :: tr' =>
      if ret =? 0 then reaped tr' else pid :: reaped tr'
  | _ :: tr' => reaped tr'
  end.

(** Two states that differ by their trace and kernel only. *)
Definition same_shell {K} (s s' : Shell.state K) : Prop :=
  Shell.background s' = Shell.background s
  /\ Shell.status s' = Shell.status s
  /\ Shell.background_pids s' = Shell.background_pids s
  /\ Shell.blocked s' = Shell.blocked s
  /\ Shell.pending s' = Shell.pending s.

(** What a sweep of the registry [pids] may add to the trace: a wait
    without hanging for one of them, or output. *)
Definition sweep_event (pids : list Z) (e : event) : Prop :=
  match e with
  | Waitpid child options _ => In child pids /\ options = WNOHANG
  | Write _ => True
  | _ => False
  end.

(** The signals sent, in order, each with the process it went to. *)
Fixpoint signals_sent (tr : list event) : list (Z * Z) :=
  match tr with
  | [] => []
  | Kill child signo :: tr' => (child, signo) :: signals_sent tr'
  | _ :: tr' => signals_sent tr'
  end.

(** A kernel as [scripted], whose children are all still running: a wait
    without hanging returns 0 and stores nothing. *)
Definition still_running (fork_ret : Z) : posix unit :=
  {| k_getpid := k_getpid (scripted fork_ret 0 0);
     k_fork := k_fork (scripted fork_ret 0 0);
     k_waitpid := fun k _ _ => (k, (0, None));
     k_open := k_open (scripted fork_ret 0 0);
     k_dup2 := k_dup2 (scripted fork_ret 0 0);
     k_execvp := k_execvp (scripted fork_ret 0 0);
     k_getenv := k_getenv (scripted fork_ret 0 0);
     k_chdir := k_chdir (scripted fork_ret 0 0);
     k_kill := k_kill (scripted fork_ret 0 0) |}.

(** A line of spaces and newlines that fits the buffer. *)
Definition blank_line (line : cstring) : Prop :=
  Forall (fun ch => is_delim whitespace ch = true) line
  /\ (length line < LEN_INPUT)%nat.

(** Where the parent stands in its handling of the child [child_pid]:
    before the blocking statement or after the unblocking one the mask is
    clear and nothing is pending; in between the mask is set. *)
Definition fg_invariant {K} (child_pid : Z)
  (cfg : list fg_action * Shell.state K) : Prop :=
  ((fst cfg = foreground child_pid \/ fst cfg = [])
   /\ Shell.blocked (snd cfg) = false /\ Shell.pending (snd cfg) = false)
  \/ ((fst cfg = [Wait child_pid; Report; Unblock]
       \/ fst cfg = [Report; Unblock] \/ fst cfg = [Unblock])
      /\ Shell.blocked (snd cfg) = true).

(** A line [parse] reads no word from: blank, or a comment. *)
Definition skipped_line (line : cstring) : Prop :=
  blank_line line \/ Ascii.eqb (char_at line 0) "#" = true.

(** ** main *)

Section Main.
Context {K : Type} (P : posix K) (W : wait_macros).

(** How far [main] got: it returned, or this process is a forked child
    that left [run] by [exit] or [execvp], or the given lines are used up
    and the loop is reading on. *)
Inductive main_result :=
| Returned (code : Z)
| Forked (o : outcome)
| Reading.

(** The [while] loop of [main] over the lines [fgets] delivers, each with
    the value the uninitialised [status] of [check_background] holds in
    that turn. *)
Fixpoint main_loop (inputs : list (Z * cstring)) (s : Shell.state K)
  : option (main_result * Shell.state K) :=
  match inputs with
  | [] => Some (Reading, s)
  | (indeterminate, line) :: rest =>
      match main_iteration P W indeterminate line s with
      | None => None
      | Some (Returns running, s) =>
          if running =? 0
          then Some (Returned 0,
                     free_background_pids P (Shell.background_pids s) s)
          else main_loop rest s
      | Some (o, s) => Some (Forked o, s)
      end
  end.

(** [main], started on the kernel state [k]. *)
Definition main (inputs : list (Z * cstring)) (k : K)
  : option (main_result * Shell.state K) :=
  let s := Shell.mk 1 0 [] false false [] k in
  let s := register_signal_handler SIGINT SIG_IGN s in
  let s := register_signal_handler SIGTSTP Handle_sigtstp s in
  main_loop inputs s.
End Main.

(** The events the forked child can add. *)
Definition child_event (e : event) : Prop :=
  match e with
  | Sigaction _ _ | Open _ _ _ | Dup2 _ _ _ | Execvp _ _ | Write _ => True
  | _ => False
  end.
(** * Properties *)

Unset Implicit Arguments.

Example parse_echo :
  parse 1 4242 (str "echo $$ < in > out &" ++ [LF])
  = Some {| args := [str "echo"; str "4242"]; input_file := Some (str "in");
            output_file := Some (str "out"); background := 1 |}.
Proof. reflexivity. Qed.


Lemma skipn_char_at (s : cstring) (i : nat) :
  (i < length s)%nat -> skipn i s = char_at s i :: skipn (i + 1) s.
Proof.
  revert i. induction s as [|x s IH]; intros i Hi; simpl in Hi; [lia|].
  destruct i as [|i]; [reflexivity|].
  simpl. rewrite IH by lia. reflexivity.
Qed.

Lemma char_at_end (s : cstring) (i : nat) :
  (length s <= i)%nat -> char_at s i = NUL.
Proof. intros H. unfold char_at. apply nth_overflow. exact H. Qed.

Lemma expand_loop_spec pid input i expanded :
  expand_loop pid input i expanded
  = expanded ++ substitute_pid (decimal pid) (skipn i input).
Proof.
  funelim (expand_loop pid input i expanded); unfold strlen in *.
  - (* i < strlen input *)
    repeat match goal with
           | IH : expand_loop _ _ _ _ = _ |- _ => rewrite IH; clear IH
           end.
    match goal with Hi : (i < length input)%nat |- _ =>
      rewrite (skipn_char_at input i Hi) end.
    unfold strcat. rewrite <- !app_assoc. cbn [substitute_pid].
    destruct (lt_dec (i + 1) (length input)) as [Hlt|Hge].
    + rewrite (skipn_char_at input (i + 1) Hlt).
      destruct (Ascii.eqb (char_at input i) "$" &&
                Ascii.eqb (char_at input (i + 1)) "$"); reflexivity.
    + rewrite (char_at_end input (i + 1)) by lia.
      rewrite andb_false_r.
      rewrite (skipn_all2 (n := i + 1) input) by lia. reflexivity.
  - (* i >= strlen input *)
    rewrite skipn_all2 by lia. rewrite app_nil_r. reflexivity.
Qed.

Lemma expand_spec pid input :
  expand pid input = substitute_pid (decimal pid) input.
Proof. unfold expand. rewrite expand_loop_spec. reflexivity. Qed.

(** *** [strtok_r] against [tokens] *)

Section Tokens.
Variable delim : cstring.

Lemma split_tokens_span s : forall cur tok e,
  span_token delim s = (tok, e) ->
  split_tokens delim cur s = split_tokens delim (cur ++ tok) e.
Proof.
  induction s as [|ch r IH]; simpl; intros cur tok e H.
  - inversion H; subst. rewrite app_nil_r. reflexivity.
  - destruct (is_delim delim ch) eqn:D.
    + inversion H; subst. rewrite app_nil_r. simpl. rewrite D. reflexivity.
    + destruct (span_token delim r) as [t' e'] eqn:E. inversion H; subst.
      rewrite (IH (cur ++ [ch]) t' e eq_refl), <- app_assoc. reflexivity.
Qed.

Lemma span_token_rest s : forall tok e,
  span_token delim s = (tok, e) ->
  match e with [] => True | d :: _ => is_delim delim d = true end.
Proof.
  induction s as [|ch r IH]; simpl; intros tok e H.
  - inversion H; exact I.
  - destruct (is_delim delim ch) eqn:D.
    + inversion H; subst. exact D.
    + destruct (span_token delim r) as [t' e'] eqn:E. inversion H; subst.
      exact (IH _ _ eq_refl).
Qed.

Lemma tokens_skip_delims s :
  tokens delim (skip_delims delim s) = tokens delim s.
Proof.
  unfold tokens. induction s as [|ch r IH]; simpl; [reflexivity|].
  destruct (is_delim delim ch) eqn:D; [exact IH|].
  simpl. rewrite D. reflexivity.
Qed.

Lemma skip_delims_head s :
  match skip_delims delim s with
  | [] => True
  | ch :: _ => is_delim delim ch = false
  end.
Proof.
  induction s as [|ch r IH]; simpl; [exact I|].
  destruct (is_delim delim ch) eqn:E; [exact IH | exact E].
Qed.

Lemma strtok_r_none save :
  strtok_r delim save = None -> tokens delim save = [].
Proof.
  unfold strtok_r. intros H. rewrite <- tokens_skip_delims.
  destruct (skip_delims delim save) as [|ch s]; [reflexivity|].
  destruct (span_token delim (ch :: s)) as [t e].
  destruct e; discriminate.
Qed.

Lemma strtok_r_some save tok rest :
  strtok_r delim save = Some (tok, rest) ->
  tokens delim save = tok :: tokens delim rest.
Proof.
  unfold strtok_r. intros H. rewrite <- tokens_skip_delims.
  pose proof (skip_delims_head save) as Hh.
  destruct (skip_delims delim save) as [|ch s]; [discriminate|].
  destruct (span_token delim (ch :: s)) as [t e] eqn:E.
  pose proof (span_token_rest _ _ _ E) as He.
  unfold tokens. rewrite (split_tokens_span _ [] _ _ E). simpl app.
  simpl in E. rewrite Hh in E.
  destruct (span_token delim s) as [t' e'] eqn:E'. inversion E; subst.
  destruct e as [|d r]; inversion H; subst; simpl.
  - reflexivity.
  - rewrite He. reflexivity.
Qed.

Lemma parse_loop_tokens save st :
  parse_loop delim save st = parse_tokens (tokens delim save) st.
Proof.
  funelim (parse_loop delim save st);
    match goal with
    | E : strtok_r _ _ = None |- _ => rewrite (strtok_r_none _ E)
    | E : strtok_r _ _ = Some _ |- _ => rewrite (strtok_r_some _ _ _ E)
    end; simpl;
    try match goal with E : parse_token _ _ = _ |- _ => rewrite E end;
    solve [reflexivity | assumption].
Qed.

Lemma split_tokens_clean s : forall cur,
  (forall ch, In ch cur -> is_delim delim ch = false) ->
  Forall (clean_token delim) (split_tokens delim cur s).
Proof.
  induction s as [|ch r IH]; simpl; intros cur Hcur.
  - destruct cur; constructor; [|constructor].
    split; [discriminate | exact Hcur].
  - destruct (is_delim delim ch) eqn:D.
    + destruct cur as [|x cur'].
      * apply IH. intros ? [].
      * constructor; [split; [discriminate | exact Hcur]|].
        apply IH. intros ? [].
    + apply IH. intros x Hx. apply in_app_or in Hx.
      destruct Hx as [Hx|[<-|[]]]; [apply Hcur; exact Hx | exact D].
Qed.

Lemma tokens_clean s : Forall (clean_token delim) (tokens delim s).
Proof. apply split_tokens_clean. intros ? []. Qed.

(** Gluing the tokens back together gives the non-delimiter characters. *)
Lemma split_tokens_concat s : forall cur,
  concat (split_tokens delim cur s)
  = cur ++ filter (fun ch => negb (is_delim delim ch)) s.
Proof.
  induction s as [|ch r IH]; simpl; intros cur.
  - destruct cur; simpl; rewrite ?app_nil_r; reflexivity.
  - destruct (is_delim delim ch) eqn:D; simpl.
    + destruct cur; simpl; rewrite IH; reflexivity.
    + rewrite IH, <- app_assoc. reflexivity.
Qed.

Lemma tokens_concat s :
  concat (tokens delim s) = filter (fun ch => negb (is_delim delim ch)) s.
Proof. apply split_tokens_concat. Qed.
End Tokens.

Lemma streq_eq a : forall b, streq a b = true <-> a = b.
Proof.
  induction a as [|x a IH]; intros [|y b]; simpl; split; intros H;
    try reflexivity; try discriminate.
  - apply andb_true_iff in H. destruct H as [Hx Hs].
    apply Ascii.eqb_eq in Hx. apply IH in Hs. subst. reflexivity.
  - inversion H; subst. rewrite Ascii.eqb_refl. simpl. apply IH. reflexivity.
Qed.

Lemma streq_neq a b : streq a b = false <-> a <> b.
Proof.
  split.
  - intros H E. apply streq_eq in E. congruence.
  - intros H. destruct (streq a b) eqn:E; [|reflexivity].
    apply streq_eq in E. contradiction.
Qed.

Lemma walk_token_args_length returns m c0 token :
  (length (args c0) <= length (args (snd (walk_token returns (m, c0) token))))%nat.
Proof.
  unfold walk_token.
  destruct (streq token (str "<")); [simpl; lia|].
  destruct (streq token (str ">")); [simpl; lia|].
  destruct m; simpl; rewrite ?length_app; simpl; lia.
Qed.

Lemma walk_args_length returns toks : forall m c0,
  (length (args c0) <= length (args (snd (walk returns toks (m, c0)))))%nat.
Proof.
  unfold walk.
  induction toks as [|t toks IH]; intros m c0; cbn [fold_left]; [simpl; lia|].
  pose proof (walk_token_args_length returns m c0 t) as H1.
  destruct (walk_token returns (m, c0) t) as [m' c'] eqn:E.
  specialize (IH m' c'). simpl in H1. lia.
Qed.

(** One turn of the loop is one step of the walk whose mode never returns,
    as long as [args] has room; it prints nothing. *)
Lemma parse_token_walk st m token :
  mode st = mode_code m ->
  (length (args (cmd st)) <= N_ARGS)%nat ->
  parse_token st token
  = let (m', c') := walk_token false (m, cmd st) token in
    if (length (args c') <=? N_ARGS)%nat
    then Some (mk_pstate c' (mode_code m') (printed st))
    else None.
Proof.
  destruct st as [c0 md pr]. cbn [cmd mode printed]. intros -> Hlen.
  pose proof Hlen as Hb. apply Nat.leb_le in Hb.
  unfold parse_token, walk_token. cbn [cmd mode printed].
  destruct (streq token (str "<")); [rewrite Hb; reflexivity|].
  destruct (streq token (str ">")); [rewrite Hb; reflexivity|].
  destruct m; simpl mode_code; simpl Z.eqb; cbv iota.
  - cbn [args set_args]. rewrite length_app. cbn [length].
    destruct (length (args c0) <? N_ARGS)%nat eqn:L.
    + apply Nat.ltb_lt in L.
      replace (length (args c0) + 1 <=? N_ARGS)%nat with true
        by (symmetry; apply Nat.leb_le; lia).
      reflexivity.
    + apply Nat.ltb_ge in L.
      replace (length (args c0) + 1 <=? N_ARGS)%nat with false
        by (symmetry; apply Nat.leb_gt; lia).
      reflexivity.
  - cbn [args set_input_file]. rewrite Hb. reflexivity.
  - cbn [args set_output_file]. rewrite Hb. reflexivity.
Qed.

Lemma parse_tokens_walk toks : forall st m,
  mode st = mode_code m ->
  (length (args (cmd st)) <= N_ARGS)%nat ->
  parse_tokens toks st
  = let (m', c') := walk false toks (m, cmd st) in
    if (length (args c') <=? N_ARGS)%nat
    then Some (mk_pstate c' (mode_code m') (printed st))
    else None.
Proof.
  unfold walk.
  induction toks as [|t toks IH]; intros st m Hm Hlen.
  - destruct st as [c0 md pr]. simpl in *. subst md.
    apply Nat.leb_le in Hlen. rewrite Hlen. reflexivity.
  - cbn [parse_tokens fold_left].
    rewrite (parse_token_walk st m t Hm Hlen).
    destruct (walk_token false (m, cmd st) t) as [m1 c1].
    destruct (length (args c1) <=? N_ARGS)%nat eqn:L.
    + apply Nat.leb_le in L.
      rewrite (IH (mk_pstate c1 (mode_code m1) (printed st)) m1 eq_refl L).
      reflexivity.
    + apply Nat.leb_gt in L.
      pose proof (walk_args_length false toks m1 c1) as H. unfold walk in H.
      destruct (fold_left (walk_token false) toks (m1, c1)) as [m' c'].
      simpl in H.
      replace (length (args c') <=? N_ARGS)%nat with false
        by (symmetry; apply Nat.leb_gt; lia).
      reflexivity.
Qed.

(** *** The background marker *)

Lemma char_at_app_r (pre s : cstring) (i : nat) :
  char_at (pre ++ s) (length pre + i) = char_at s i.
Proof.
  unfold char_at. rewrite app_nth2 by lia. f_equal. lia.
Qed.

Lemma set_char_app_r (pre s : cstring) (i : nat) ch :
  set_char (pre ++ s) (length pre + i) ch = pre ++ set_char s i ch.
Proof.
  induction pre as [|x pre IH]; simpl; [reflexivity|].
  rewrite IH. reflexivity.
Qed.

(** Every string of two characters or more splits before its last two. *)
Lemma split_last_two (s : cstring) :
  (2 <= length s)%nat ->
  exists pre x y, s = pre ++ [x; y] /\ length pre = (length s - 2)%nat.
Proof.
  intros H.
  exists (firstn (length s - 2) s).
  pose proof (firstn_skipn (length s - 2) s) as E.
  assert (L : length (skipn (length s - 2) s) = 2%nat)
    by (rewrite length_skipn; lia).
  destruct (skipn (length s - 2) s) as [|x [|y [|z r]]]; simpl in L; try lia.
  exists x, y. split; [symmetry; exact E|].
  rewrite length_firstn. lia.
Qed.

Lemma parse_expanded_marked bg pre last :
  (length (pre ++ ["&"%char; last]) < LEN_INPUT)%nat ->
  parse_expanded bg (pre ++ ["&"%char; last])
  = finish (parse_tokens (tokens whitespace (pre ++ [" "%char; last]))
              (mk_pstate (set_background create_command bg) 0 [])).
Proof.
  intros Hlen. unfold parse_expanded, strlen.
  apply Nat.leb_gt in Hlen. rewrite Hlen.
  rewrite length_app. cbn [length].
  replace (Z.to_nat (Z.of_nat (length pre + 2) - 2)) with (length pre + 0)%nat
    by lia.
  rewrite char_at_app_r, set_char_app_r.
  replace (0 <=? Z.of_nat (length pre + 2) - 2) with true
    by (symmetry; apply Z.leb_le; lia).
  cbn [char_at nth Ascii.eqb Bool.eqb andb set_char].
  rewrite parse_loop_tokens. reflexivity.
Qed.

Lemma parse_expanded_unmarked bg e :
  (length e < LEN_INPUT)%nat ->
  (forall pre last, e <> pre ++ ["&"%char; last]) ->
  parse_expanded bg e
  = finish (parse_tokens (tokens whitespace e) (mk_pstate create_command 0 [])).
Proof.
  intros Hlen Hno. unfold parse_expanded, strlen.
  apply Nat.leb_gt in Hlen. rewrite Hlen.
  destruct (0 <=? Z.of_nat (length e) - 2) eqn:Hi; simpl.
  - apply Z.leb_le in Hi.
    destruct (split_last_two e) as (pre & x & y & -> & Hpre); [lia|].
    rewrite length_app in *. cbn [length] in *.
    replace (Z.to_nat (Z.of_nat (length pre + 2) - 2))
      with (length pre + 0)%nat by lia.
    rewrite char_at_app_r. cbn [char_at nth].
    destruct (Ascii.eqb x "&") eqn:Ex.
    + apply Ascii.eqb_eq in Ex. subst x. exfalso. exact (Hno pre y eq_refl).
    + rewrite parse_loop_tokens. reflexivity.
  - rewrite parse_loop_tokens. reflexivity.
Qed.


(** *** [parse] on lists *)

Lemma strip_marker_marked pre last :
  strip_marker (pre ++ ["&"%char; last]) = (true, pre ++ [" "%char; last]).
Proof.
  unfold strip_marker. rewrite length_app. cbn [length].
  replace (length pre + 2 - 2)%nat with (length pre + 0)%nat by lia.
  rewrite skipn_app, firstn_app.
  replace (length pre + 0 - length pre)%nat with 0%nat by lia.
  rewrite Nat.add_0_r, skipn_all, firstn_all. simpl. rewrite app_nil_r.
  reflexivity.
Qed.

Lemma strip_marker_unmarked e :
  (forall pre last, e <> pre ++ ["&"%char; last]) ->
  strip_marker e = (false, e).
Proof.
  intros Hno. unfold strip_marker.
  destruct (skipn (length e - 2) e) as [|x [|y [|z r]]] eqn:E; try reflexivity.
  destruct (Ascii.eqb x "&") eqn:Ex; [|reflexivity].
  apply Ascii.eqb_eq in Ex. subst x. exfalso.
  apply (Hno (firstn (length e - 2) e) y).
  rewrite <- E. symmetry. apply firstn_skipn.
Qed.

(** A line either ends with the marker and one more character or not. *)
Lemma marker_dec (e : cstring) :
  (exists pre last, e = pre ++ ["&"%char; last])
  \/ (forall pre last, e <> pre ++ ["&"%char; last]).
Proof.
  destruct (le_lt_dec 2 (length e)) as [H|H].
  - destruct (split_last_two e H) as (pre & x & y & -> & _).
    destruct (Ascii.eqb x "&") eqn:Ex.
    + apply Ascii.eqb_eq in Ex. subst x. left. exists pre, y. reflexivity.
    + right. intros pre' last' E.
      assert (E' : pre ++ [x; y] = pre' ++ ["&"%char; last']) by exact E.
      change (pre ++ [x; y]) with (pre ++ [x] ++ [y]) in E'.
      change (pre' ++ ["&"%char; last']) with (pre' ++ ["&"%char] ++ [last']) in E'.
      rewrite !app_assoc in E'.
      apply app_inj_tail in E'. destruct E' as [E' _].
      apply app_inj_tail in E'. destruct E' as [_ ->].
      rewrite Ascii.eqb_refl in Ex. discriminate.
  - right. intros pre last ->. rewrite length_app in H. simpl in H. lia.
Qed.

Lemma parse_expanded_spec bg e :
  parse_expanded bg e
  = if (LEN_INPUT <=? length e)%nat then None
    else if (length (args (plan bg e)) <=? N_ARGS)%nat
         then Some (plan bg e, [])
         else None.
Proof.
  destruct (LEN_INPUT <=? length e)%nat eqn:L.
  { unfold parse_expanded, strlen. rewrite L. reflexivity. }
  apply Nat.leb_gt in L. unfold plan.
  destruct (marker_dec e) as [(pre & last & ->)|Hno].
  - rewrite (parse_expanded_marked bg pre last L), strip_marker_marked.
    rewrite (parse_tokens_walk _ _ ARG) by (simpl; auto; unfold N_ARGS; lia).
    cbn [cmd printed].
    destruct (walk false _ _) as [m' c']. cbn [snd].
    destruct (length (args c') <=? N_ARGS)%nat; reflexivity.
  - rewrite (parse_expanded_unmarked bg e L Hno), (strip_marker_unmarked e Hno).
    rewrite (parse_tokens_walk _ _ ARG) by (simpl; auto; unfold N_ARGS; lia).
    cbn [cmd printed].
    destruct (walk false _ _) as [m' c']. cbn [snd].
    destruct (length (args c') <=? N_ARGS)%nat; reflexivity.
Qed.

Lemma parse_full_spec bg pid input :
  parse_full bg pid input
  = if Ascii.eqb (char_at input 0) "#" then Some (create_command, [])
    else
      let e := substitute_pid (decimal pid) input in
      if (LEN_INPUT <=? length e)%nat then None
      else if (length (args (plan bg e)) <=? N_ARGS)%nat
           then Some (plan bg e, [])
           else None.
Proof.
  unfold parse_full. rewrite expand_spec, parse_expanded_spec. reflexivity.
Qed.

(** [parse] is defined exactly when it stays inside its two arrays, and
    then returns the command of the walk. *)
Lemma parse_some bg pid input c0 :
  parse bg pid input = Some c0 ->
  Ascii.eqb (char_at input 0) "#" = false ->
  c0 = plan bg (substitute_pid (decimal pid) input)
  /\ (length (substitute_pid (decimal pid) input) < LEN_INPUT)%nat
  /\ (length (args c0) <= N_ARGS)%nat.
Proof.
  unfold parse. rewrite parse_full_spec. intros H Hc. rewrite Hc in H.
  cbv zeta in H.
  destruct (LEN_INPUT <=? _)%nat eqn:L; [discriminate|].
  destruct (length (args _) <=? N_ARGS)%nat eqn:A; [|discriminate].
  apply Nat.leb_gt in L. apply Nat.leb_le in A.
  simpl in H. inversion H; subst. auto.
Qed.

Lemma parse_defined bg pid input :
  Ascii.eqb (char_at input 0) "#" = false ->
  (length (substitute_pid (decimal pid) input) < LEN_INPUT)%nat ->
  (length (args (plan bg (substitute_pid (decimal pid) input))) <= N_ARGS)%nat ->
  parse bg pid input = Some (plan bg (substitute_pid (decimal pid) input)).
Proof.
  intros Hc L A. unfold parse. rewrite parse_full_spec, Hc. cbv zeta.
  apply Nat.leb_gt in L. apply Nat.leb_le in A. rewrite L, A. reflexivity.
Qed.

(** The final [else] of the loop is dead: nothing is ever printed. *)
Lemma parse_prints_nothing bg pid input c0 out :
  parse_full bg pid input = Some (c0, out) -> out = [].
Proof.
  rewrite parse_full_spec.
  destruct (Ascii.eqb _ _); [intros H; inversion H; reflexivity|].
  cbv zeta. destruct (LEN_INPUT <=? _)%nat; [discriminate|].
  destruct (_ <=? N_ARGS)%nat; [|discriminate].
  intros H; inversion H; reflexivity.
Qed.

(** *** What the walk does to each field *)

Lemma walk_token_background returns m c0 token :
  background (snd (walk_token returns (m, c0) token)) = background c0.
Proof.
  unfold walk_token.
  destruct (streq token (str "<")); [reflexivity|].
  destruct (streq token (str ">")); [reflexivity|].
  destruct m; reflexivity.
Qed.

Lemma walk_background returns toks : forall m c0,
  background (snd (walk returns toks (m, c0))) = background c0.
Proof.
  unfold walk.
  induction toks as [|t toks IH]; intros m c0; cbn [fold_left]; [reflexivity|].
  pose proof (walk_token_background returns m c0 t) as H.
  destruct (walk_token returns (m, c0) t) as [m' c'].
  rewrite IH. exact H.
Qed.

(** Once the mode has left [ARG] it never comes back, and [args] is final. *)
Lemma walk_token_sticky m c0 token :
  m <> ARG ->
  fst (walk_token false (m, c0) token) <> ARG
  /\ args (snd (walk_token false (m, c0) token)) = args c0.
Proof.
  intros Hm. unfold walk_token.
  destruct (streq token (str "<")); [split; [discriminate | reflexivity]|].
  destruct (streq token (str ">")); [split; [discriminate | reflexivity]|].
  destruct m; [contradiction | |]; split; (discriminate || reflexivity).
Qed.

Lemma walk_sticky toks : forall m c0,
  m <> ARG ->
  fst (walk false toks (m, c0)) <> ARG
  /\ args (snd (walk false toks (m, c0))) = args c0.
Proof.
  unfold walk.
  induction toks as [|t toks IH]; intros m c0 Hm; cbn [fold_left].
  - split; [exact Hm | reflexivity].
  - destruct (walk_token_sticky m c0 t Hm) as [H1 H2].
    destruct (walk_token false (m, c0) t) as [m' c']. cbn [fst snd] in H1, H2.
    destruct (IH m' c' H1) as [H3 H4]. split; [exact H3 | congruence].
Qed.

Lemma walk_args toks : forall c0,
  args (snd (walk false toks (ARG, c0))) = args c0 ++ leading_args toks.
Proof.
  unfold walk.
  induction toks as [|t toks IH]; intros c0; cbn [fold_left leading_args].
  - simpl. rewrite app_nil_r. reflexivity.
  - unfold is_redirect.
    replace (walk_token false (ARG, c0) t)
      with (if streq t (str "<") then (EXPECT_IN, c0)
            else if streq t (str ">") then (EXPECT_OUT, c0)
            else (ARG, set_args c0 (args c0 ++ [t]))) by reflexivity.
    destruct (streq t (str "<")).
    { cbn [orb]. rewrite app_nil_r.
      apply (walk_sticky toks EXPECT_IN c0). discriminate. }
    destruct (streq t (str ">")).
    { cbn [orb]. rewrite app_nil_r.
      apply (walk_sticky toks EXPECT_OUT c0). discriminate. }
    cbn [orb]. rewrite IH. cbn [args set_args]. rewrite <- app_assoc.
    reflexivity.
Qed.

Lemma plan_args bg e :
  args (plan bg e) = leading_args (tokens whitespace (snd (strip_marker e))).
Proof.
  unfold plan. destruct (strip_marker e) as [marked line]. cbn [snd].
  rewrite walk_args. destruct marked; reflexivity.
Qed.

Lemma plan_background bg e :
  background (plan bg e) = if fst (strip_marker e) then bg else 0.
Proof.
  unfold plan. destruct (strip_marker e) as [marked line]. cbn [fst].
  rewrite walk_background. destruct marked; reflexivity.
Qed.

Lemma leading_args_incl toks a :
  In a (leading_args toks) -> In a toks /\ is_redirect a = false.
Proof.
  induction toks as [|t toks IH]; simpl; [intros []|].
  destruct (is_redirect t) eqn:R; [intros []|].
  intros [<-|H]; [split; [left; reflexivity | exact R]|].
  destruct (IH H) as [H1 H2]. split; [right; exact H1 | exact H2].
Qed.

Lemma count_char_app ch a b :
  count_char ch (a ++ b) = (count_char ch a + count_char ch b)%nat.
Proof. unfold count_char. rewrite filter_app, length_app. reflexivity. Qed.

Lemma leading_args_count ch toks :
  (count_char ch (concat (leading_args toks)) <= count_char ch (concat toks))%nat.
Proof.
  induction toks as [|t toks IH]; cbn [leading_args concat]; [lia|].
  destruct (is_redirect t); cbn [concat]; rewrite ?count_char_app.
  - unfold count_char at 1. simpl. lia.
  - lia.
Qed.

Lemma count_char_non_delim delim ch s :
  is_delim delim ch = false ->
  count_char ch (filter (fun x => negb (is_delim delim x)) s) = count_char ch s.
Proof.
  intros H. unfold count_char.
  induction s as [|x s IH]; simpl; [reflexivity|].
  destruct (is_delim delim x) eqn:D; simpl.
  - destruct (Ascii.eqb ch x) eqn:E; [|exact IH].
    apply Ascii.eqb_eq in E. subst x. congruence.
  - destruct (Ascii.eqb ch x); simpl; rewrite IH; reflexivity.
Qed.

(** A delimiter at the end of a line adds no token. *)
Lemma split_tokens_app_delim delim d s : forall cur,
  is_delim delim d = true ->
  split_tokens delim cur (s ++ [d]) = split_tokens delim cur s.
Proof.
  induction s as [|ch r IH]; intros cur Hd; simpl.
  - rewrite Hd. destruct cur; reflexivity.
  - destruct (is_delim delim ch); [destruct cur|]; rewrite IH; auto.
Qed.

Lemma tokens_app_delim delim d s :
  is_delim delim d = true -> tokens delim (s ++ [d]) = tokens delim s.
Proof. apply split_tokens_app_delim. Qed.

(** *** The substitution *)

Lemma substitute_pid_cons text ch ch' r :
  substitute_pid text (ch :: ch' :: r)
  = if Ascii.eqb ch "$" && Ascii.eqb ch' "$"
    then text ++ substitute_pid text r
    else ch :: substitute_pid text (ch' :: r).
Proof. reflexivity. Qed.

Lemma substitute_pid_no_pair text s : no_pair s -> substitute_pid text s = s.
Proof.
  induction s as [|ch r IH]; [reflexivity|].
  destruct r as [|ch' r']; [reflexivity|].
  intros [Hn Hr]. rewrite substitute_pid_cons.
  destruct (Ascii.eqb ch "$" && Ascii.eqb ch' "$") eqn:E.
  - apply andb_true_iff in E. destruct E as [E1 E2].
    apply Ascii.eqb_eq in E1, E2. exfalso. apply Hn. split; assumption.
  - f_equal. apply IH. exact Hr.
Qed.

(** A prefix without [$$] that does not end with [$] is copied, and the
    pass starts afresh after it. *)
Lemma substitute_pid_prefix text a : forall b,
  no_pair a -> last a " "%char <> "$"%char ->
  substitute_pid text (a ++ b) = a ++ substitute_pid text b.
Proof.
  induction a as [|ch r IH]; intros b Hn Hl; [reflexivity|].
  destruct r as [|ch' r'].
  - simpl in Hl. destruct b as [|x b']; [reflexivity|].
    change ([ch] ++ x :: b') with (ch :: x :: b').
    rewrite substitute_pid_cons.
    destruct (Ascii.eqb ch "$") eqn:E; [|reflexivity].
    apply Ascii.eqb_eq in E. contradiction.
  - destruct Hn as [Hn Hr].
    change ((ch :: ch' :: r') ++ b) with (ch :: ch' :: (r' ++ b)).
    rewrite substitute_pid_cons.
    destruct (Ascii.eqb ch "$" && Ascii.eqb ch' "$") eqn:E.
    + apply andb_true_iff in E. destruct E as [E1 E2].
      apply Ascii.eqb_eq in E1, E2. exfalso. apply Hn. split; assumption.
    + change (ch' :: r' ++ b) with ((ch' :: r') ++ b).
      rewrite IH; [reflexivity | exact Hr | exact Hl].
Qed.

Lemma substitute_pid_pair text b :
  substitute_pid text (str "$$" ++ b) = text ++ substitute_pid text b.
Proof. reflexivity. Qed.

(** ** The parser's contract *)

(** C1 (as the code has it): the tokenizing loop is the three-state walk in
    which [<] selects EXPECT_IN, [>] selects EXPECT_OUT, any other token is
    appended to argv in ARG and stored as input_file (output_file) in
    EXPECT_IN (EXPECT_OUT); the mode stays where it is after a file name has
    been stored, so argv is exactly the tokens that precede the first
    redirection operator and a token after a file name replaces that file
    name. *)
Theorem semantic_pass_keeps_mode bg pid input cmd0 :
  parse bg pid input = Some cmd0 ->
  Ascii.eqb (char_at input 0) "#" = false ->
  let e := strip_marker (expand pid input) in
  cmd0 = snd (walk false (tokens whitespace (snd e))
                (ARG, if fst e then set_background create_command bg
                      else create_command))
  /\ args cmd0 = leading_args (tokens whitespace (snd e)).
Proof.
  intros H Hc e. destruct (parse_some bg pid input cmd0 H Hc) as [-> _].
  subst e. rewrite expand_spec. split.
  - unfold plan. destruct (strip_marker _) as [marked line]. reflexivity.
  - apply plan_args.
Qed.

Lemma semantic_pass_keeps_mode_witness :
  parse 1 4242 (str "sort -r < in > out" ++ [LF])
  = Some {| args := [str "sort"; str "-r"]; input_file := Some (str "in");
            output_file := Some (str "out"); background := 0 |}
  /\ args {| args := [str "sort"; str "-r"]; input_file := Some (str "in");
             output_file := Some (str "out"); background := 0 |}
     = leading_args (tokens whitespace
         (snd (strip_marker (expand 4242 (str "sort -r < in > out" ++ [LF]))))).
Proof.
  split; [reflexivity|].
  apply (semantic_pass_keeps_mode 1 4242 (str "sort -r < in > out" ++ [LF]));
    reflexivity.
Defined.

(** C1 as stated fails: with the mode returning to ARG, [extra] would join
    argv and [in] would stay the input file; the code stores [extra] over
    [in] and leaves it out of argv. *)
Lemma semantic_pass_mode_never_returns :
  snd (walk true (tokens whitespace (str "cat < in extra" ++ [LF]))
         (ARG, create_command))
  = {| args := [str "cat"; str "extra"]; input_file := Some (str "in");
       output_file := None; background := 0 |}
  /\ parse 1 4242 (str "cat < in extra" ++ [LF])
     = Some {| args := [str "cat"]; input_file := Some (str "extra");
               output_file := None; background := 0 |}.
Proof. split; reflexivity. Qed.

(** C2 (as the code has it): when the second to last character of the
    expanded line is [&], [background] receives the value of the global
    (non-zero outside foreground-only mode, zero inside it) and that
    character is blanked before tokenizing, which removes a bare [&] that
    ends the line; otherwise [background] stays 0 and every [&] is left in
    the token stream, where the tokens before the first redirection
    operator, [&] included, become argv. *)
Theorem background_marker_is_second_to_last bg pid input cmd0 :
  parse bg pid input = Some cmd0 ->
  Ascii.eqb (char_at input 0) "#" = false ->
  (forall pre last, expand pid input = pre ++ ["&"%char; last] ->
     background cmd0 = bg
     /\ args cmd0 = leading_args (tokens whitespace (pre ++ [" "%char; last]))
     /\ (is_delim whitespace last = true ->
         args cmd0 = leading_args (tokens whitespace pre)))
  /\ ((forall pre last, expand pid input <> pre ++ ["&"%char; last]) ->
      background cmd0 = 0
      /\ args cmd0 = leading_args (tokens whitespace (expand pid input)))
  /\ (bg = 0 -> background cmd0 = 0).
Proof.
  intros H Hc. destruct (parse_some bg pid input cmd0 H Hc) as [-> _].
  rewrite expand_spec. repeat split.
  - rewrite plan_background, H0, strip_marker_marked. reflexivity.
  - rewrite plan_args, H0, strip_marker_marked. reflexivity.
  - intros Hd. rewrite plan_args, H0, strip_marker_marked. cbn [snd].
    change (pre ++ [" "%char; last]) with (pre ++ [" "%char] ++ [last]).
    rewrite app_assoc, (tokens_app_delim _ _ _ Hd), tokens_app_delim;
      reflexivity.
  - rewrite plan_background, (strip_marker_unmarked _ H0). reflexivity.
  - rewrite plan_args, (strip_marker_unmarked _ H0). reflexivity.
  - intros ->. rewrite plan_background. destruct (fst _); reflexivity.
Qed.

Lemma background_marker_is_second_to_last_witness :
  parse 1 4242 (str "sleep 5 &" ++ [LF])
  = Some {| args := [str "sleep"; str "5"]; input_file := None;
            output_file := None; background := 1 |}
  /\ (1 = 0 -> background {| args := [str "sleep"; str "5"]; input_file := None;
                             output_file := None; background := 1 |} = 0).
Proof.
  split; [reflexivity|].
  apply (background_marker_is_second_to_last 1 4242 (str "sleep 5 &" ++ [LF]));
    reflexivity.
Defined.

(** C2 as stated fails: in [sleep 5 & ] followed by the newline the last
    token is a bare [&], yet [background] stays 0 and [&] is an argument. *)
Lemma background_marker_before_blank_is_kept :
  last (tokens whitespace (expand 4242 (str "sleep 5 & " ++ [LF]))) []
  = str "&"
  /\ parse 1 4242 (str "sleep 5 & " ++ [LF])
     = Some {| args := [str "sleep"; str "5"; str "&"]; input_file := None;
               output_file := None; background := 0 |}.
Proof. split; reflexivity. Qed.

(** C3 (as the code has it): a line whose first character is [#] yields the
    empty command, whatever follows: no argument, no redirection,
    [background] 0. *)
Theorem comment_line_yields_empty_command bg pid input :
  char_at input 0 = "#"%char ->
  parse bg pid input
  = Some {| args := []; input_file := None; output_file := None;
            background := 0 |}.
Proof.
  intros H. unfold parse, parse_full. rewrite H. reflexivity.
Qed.

Lemma comment_line_yields_empty_command_witness :
  char_at (str "# ls > out &" ++ [LF]) 0 = "#"%char
  /\ parse 1 4242 (str "# ls > out &" ++ [LF])
     = Some {| args := []; input_file := None; output_file := None;
               background := 0 |}.
Proof.
  split; [reflexivity|].
  apply (comment_line_yields_empty_command 1 4242); reflexivity.
Defined.

(** C3 as stated fails: [#] is the first non-whitespace character of the
    line, which is parsed like any other. *)
Lemma comment_after_blank_is_parsed :
  first_non_whitespace (str " # ls" ++ [LF]) = Some "#"%char
  /\ parse 1 4242 (str " # ls" ++ [LF])
     = Some {| args := [str "#"; str "ls"]; input_file := None;
               output_file := None; background := 0 |}.
Proof. split; reflexivity. Qed.

(** C6: on a line that is not a comment the expansion loop is the single
    left-to-right pass that replaces each pair [$$] by the decimal process
    identifier and copies every other character, a lone [$] included; the
    rest of [parse] works on that text.  A line without [$$] is unchanged,
    and text before the first [$$] is copied as it is. *)
Theorem expansion_replaces_pid_pairs bg pid input :
  Ascii.eqb (char_at input 0) "#" = false ->
  expand pid input = substitute_pid (decimal pid) input
  /\ parse bg pid input
     = option_map fst (parse_expanded bg (substitute_pid (decimal pid) input))
  /\ (no_pair input -> expand pid input = input)
  /\ (forall a b, input = a ++ str "$$" ++ b ->
        no_pair a -> last a " "%char <> "$"%char ->
        expand pid input = a ++ decimal pid ++ expand pid b).
Proof.
  intros Hc. repeat split.
  - apply expand_spec.
  - unfold parse, parse_full. rewrite Hc, expand_spec. reflexivity.
  - intros Hn. rewrite expand_spec. apply substitute_pid_no_pair. exact Hn.
  - intros a b -> Hn Hl. rewrite !expand_spec.
    rewrite substitute_pid_prefix by assumption.
    rewrite substitute_pid_pair. reflexivity.
Qed.

Lemma expansion_replaces_pid_pairs_witness :
  Ascii.eqb (char_at (str "echo $$ $ $$$" ++ [LF]) 0) "#" = false
  /\ expand 4242 (str "echo $$ $ $$$" ++ [LF])
     = substitute_pid (decimal 4242) (str "echo $$ $ $$$" ++ [LF])
  /\ substitute_pid (decimal 4242) (str "echo $$ $ $$$" ++ [LF])
     = str "echo 4242 $ 4242$" ++ [LF].
Proof.
  split; [reflexivity|]. split; [|reflexivity].
  exact (proj1 (expansion_replaces_pid_pairs 1 4242
                  (str "echo $$ $ $$$" ++ [LF]) eq_refl)).
Defined.

(** C7: in every command the parser returns, no argument is empty, none is
    [<] or [>], and when the [&] before the last character was taken as the
    background marker that character is in no argument: every argument is a
    token of the line in which it has been blanked, so argv holds fewer [&]
    than the expanded line. *)
Theorem argv_invariant bg pid input cmd0 :
  parse bg pid input = Some cmd0 ->
  Forall (fun a => a <> [] /\ a <> str "<" /\ a <> str ">") (args cmd0)
  /\ forall pre last, expand pid input = pre ++ ["&"%char; last] ->
       (forall a, In a (args cmd0) ->
          In a (tokens whitespace (pre ++ [" "%char; last])))
       /\ (count_char "&" (concat (args cmd0))
           < count_char "&" (expand pid input))%nat.
Proof.
  intros H.
  destruct (Ascii.eqb (char_at input 0) "#") eqn:Hc.
  { unfold parse, parse_full in H. rewrite Hc in H. inversion H; subst.
    split; [constructor|]. intros pre last E. split; [intros a []|].
    rewrite E, count_char_app. unfold count_char. simpl. lia. }
  destruct (parse_some bg pid input cmd0 H Hc) as [-> _].
  rewrite expand_spec. split.
  - apply Forall_forall. intros a Ha. rewrite plan_args in Ha.
    apply leading_args_incl in Ha. destruct Ha as [Ha Hr].
    pose proof (tokens_clean whitespace (snd (strip_marker
                  (substitute_pid (decimal pid) input)))) as Hclean.
    rewrite Forall_forall in Hclean. destruct (Hclean a Ha) as [Hne _].
    unfold is_redirect in Hr. apply orb_false_iff in Hr.
    destruct Hr as [R1 R2]. apply streq_neq in R1, R2. auto.
  - intros pre last E. rewrite plan_args, E, strip_marker_marked. cbn [snd].
    split.
    + intros a Ha. apply leading_args_incl in Ha. apply Ha.
    + eapply Nat.le_lt_trans; [apply leading_args_count|].
      rewrite tokens_concat, count_char_non_delim by reflexivity.
      rewrite !count_char_app. unfold count_char. simpl. lia.
Qed.

Lemma argv_invariant_witness :
  parse 1 4242 (str "a & < in &" ++ [LF])
  = Some {| args := [str "a"; str "&"]; input_file := Some (str "in");
            output_file := None; background := 1 |}
  /\ Forall (fun a => a <> [] /\ a <> str "<" /\ a <> str ">")
       [str "a"; str "&"].
Proof.
  split; [reflexivity|].
  apply (argv_invariant 1 4242 (str "a & < in &" ++ [LF])
           {| args := [str "a"; str "&"]; input_file := Some (str "in");
              output_file := None; background := 1 |}).
  reflexivity.
Defined.

(** ** The process *)

Section ProcessProperties.
Context {K : Type} (P : posix K) (W : wait_macros).

Local Abbreviation state := (Shell.state K).

Lemma stdout_app tr1 tr2 : stdout (tr1 ++ tr2) = stdout tr1 ++ stdout tr2.
Proof.
  induction tr1 as [|e tr1 IH]; [reflexivity|].
  destruct e; simpl; rewrite IH, ?app_assoc; reflexivity.
Qed.

(** *** The handler *)

Lemma handle_sigtstp_spec signo (s : state) :
  handle_sigtstp signo s
  = if foreground_only s
    then log (with_background s 1) (Write exiting_banner)
    else log (with_background s 0) (Write entering_banner).
Proof.
  unfold handle_sigtstp, foreground_only, lnot, write.
  destruct (Shell.background s =? 0); reflexivity.
Qed.

(** C9: whatever the flag is, two runs of the handler give it back its
    value, and write the two banners in the order of the toggles: entering
    then exiting when the flag was clear, exiting then entering when it was
    set. *)
Theorem toggle_twice_restores_flag (s : state) :
  let s2 := handle_sigtstp SIGTSTP (handle_sigtstp SIGTSTP s) in
  foreground_only s2 = foreground_only s
  /\ foreground_only (handle_sigtstp SIGTSTP s) = negb (foreground_only s)
  /\ Shell.trace s2
     = Shell.trace s
       ++ (if foreground_only s
           then [Write exiting_banner; Write entering_banner]
           else [Write entering_banner; Write exiting_banner])
  /\ stdout (Shell.trace s2)
     = stdout (Shell.trace s)
       ++ (if foreground_only s then exiting_banner ++ entering_banner
           else entering_banner ++ exiting_banner).
Proof.
  cbv zeta. rewrite !handle_sigtstp_spec.
  destruct (foreground_only s) eqn:F; cbn; rewrite ?stdout_app;
    repeat split; try rewrite <- app_assoc; try reflexivity.
Qed.

(** *** redirect *)

Lemma redirect_open_failure file_name flag error (s : state) :
  snd (k_open P (Shell.kernel s) file_name flag 511) = -1 ->
  exists s',
    redirect P file_name flag error s = (1, s')
    /\ Shell.status s' = 1
    /\ stdout (Shell.trace s')
       = stdout (Shell.trace s)
         ++ str "bash: " ++ file_name ++ str ": No such file or directory"
         ++ [LF].
Proof.
  intros H. unfold redirect.
  destruct (k_open P (Shell.kernel s) file_name flag 511) as [k fd].
  simpl in H. subst fd. cbn [Z.eqb].
  eexists. split; [reflexivity|]. split; [reflexivity|].
  cbn. rewrite !stdout_app. cbn. rewrite !app_nil_r. reflexivity.
Qed.

(** The status [redirect] leaves reads as exit value 1 only under macros
    that decode 1 that way. *)
Lemma print_status_one (s : state) :
  stdout (Shell.trace (print_status W 1 s))
  = stdout (Shell.trace s)
    ++ (if WIFEXITED W 1
        then str "exit value " ++ decimal (WEXITSTATUS W 1) ++ [LF]
        else str "terminated by signal " ++ decimal (WTERMSIG W 1) ++ [LF]).
Proof.
  unfold print_status. destruct (WIFEXITED W 1); cbn;
    rewrite stdout_app; cbn; rewrite app_nil_r; reflexivity.
Qed.

(** *** check_background *)

(** Once a node has been kept, the loop is the sweep of the
    specification. *)
Lemma check_loop_reap_all cur : forall kept status (s : state),
  kept <> [] ->
  check_loop P W kept cur status s
  = let (l, s') := reap_all P W cur status s in (kept ++ l, s').
Proof.
  induction cur as [|pid next IH]; intros kept status s Hk.
  - simpl. rewrite app_nil_r. reflexivity.
  - cbn [check_loop reap_all].
    destruct (waitpid P pid status WNOHANG s) as [[result status'] s1].
    destruct (negb (result =? 0)).
    + destruct kept as [|x kept']; [contradiction|].
      rewrite IH by discriminate. reflexivity.
    + rewrite IH by (destruct kept; discriminate).
      destruct (reap_all P W next status' s1) as [l s'].
      rewrite <- app_assoc. reflexivity.
Qed.

(** When the first child is still running, every identifier is waited for
    once and the finished ones are announced and removed. *)
Lemma check_background_head_running junk pid next (s : state) :
  fst (fst (waitpid P pid junk WNOHANG s)) = 0 ->
  check_background P W junk (pid :: next) s
  = reap_all P W (pid :: next) junk s.
Proof.
  intros H. unfold check_background. cbn [check_loop reap_all].
  destruct (waitpid P pid junk WNOHANG s) as [[result status'] s1].
  simpl in H. subst result. cbn [Z.eqb negb].
  rewrite check_loop_reap_all by discriminate. reflexivity.
Qed.

(** When the first child has finished, the second node becomes the head
    without being waited for; the sweep goes on after it. *)
Lemma check_background_head_reaped junk pid pid' next (s : state) :
  fst (fst (waitpid P pid junk WNOHANG s)) <> 0 ->
  check_background P W junk (pid :: pid' :: next) s
  = let '(_, status, s1) := waitpid P pid junk WNOHANG s in
    let s2 := print_status W status
                (printf (str "background pid " ++ decimal pid
                           ++ str " is done: ") s1) in
    let (l, s') := reap_all P W next status s2 in (pid' :: l, s').
Proof.
  intros H. unfold check_background. cbn [check_loop].
  destruct (waitpid P pid junk WNOHANG s) as [[result status'] s1].
  simpl in H. apply Z.eqb_neq in H. rewrite H. cbn [negb].
  rewrite check_loop_reap_all by discriminate. reflexivity.
Qed.
End ProcessProperties.

(** C5: at a path that cannot be opened [redirect] writes the diagnostic
    and returns 1, but the status it stores is the integer 1, which
    [print_status] decodes with the system's macros as death by signal 1;
    the status of a child that exited with code 1 is 256. *)
Theorem redirect_failure_status_reads_as_signal :
  fst (redirect (scripted 0 (-1) 0) (str "missing.txt") O_RDONLY (str "input")
         initial) = 1
  /\ Shell.status
       (snd (redirect (scripted 0 (-1) 0) (str "missing.txt") O_RDONLY
               (str "input") initial)) = 1
  /\ stdout (Shell.trace
       (snd (redirect (scripted 0 (-1) 0) (str "missing.txt") O_RDONLY
               (str "input") initial)))
     = str "bash: missing.txt: No such file or directory" ++ [LF]
  /\ stdout (Shell.trace (print_status glibc 1 initial))
     = str "terminated by signal 1" ++ [LF]
  /\ stdout (Shell.trace (print_status glibc 256 initial))
     = str "exit value 1" ++ [LF].
Proof. repeat split; reflexivity. Qed.

(** *** run *)

Section RunProperties.
Context {K : Type} (P : posix K) (W : wait_macros).

Local Abbreviation state := (Shell.state K).

Lemma run_child_never_returns command (s : state) v :
  fst (run_child P command s) <> Returns v.
Proof.
  unfold run_child.
  destruct (negb (background command =? 0)); cbv zeta;
    repeat match goal with
           | |- context [match ?x with Some _ => _ | None => _ end] =>
               destruct x
           | |- context [redirect ?p ?f ?fl ?e ?st] =>
               destruct (redirect p f fl e st) as [? ?]
           | |- context [if ?b then _ else _] => destruct b
           end; cbn [fst]; discriminate.
Qed.

Lemma run_exit command rest (s : state) :
  args command = str "exit" :: rest -> run P W command s = (Returns 0, s).
Proof. intros H. unfold run. rewrite H. reflexivity. Qed.

Lemma run_returns command (s : state) v :
  fst (run P W command s) = Returns v ->
  (v = 0 /\ exists rest, args command = str "exit" :: rest)
  \/ (v = 1 /\ forall rest, args command <> str "exit" :: rest).
Proof.
  unfold run.
  destruct (args command) as [|arg0 rest] eqn:A.
  { cbn [fst]. intros H; inversion H. right. split; [reflexivity|].
    intros r; discriminate. }
  destruct (streq arg0 (str "exit")) eqn:E.
  { apply streq_eq in E. subst arg0. cbn [fst]. intros H; inversion H.
    left. split; [reflexivity | exists rest; reflexivity]. }
  apply streq_neq in E.
  assert (Hne : forall r, arg0 :: rest <> str "exit" :: r)
    by (intros r H; inversion H; contradiction).
  destruct (streq arg0 (str "cd")).
  { cbn [fst]. intros H; inversion H. right. auto. }
  destruct (streq arg0 (str "status")).
  { cbn [fst]. intros H; inversion H. right. auto. }
  destruct (k_fork P (Shell.kernel s)) as [k child_pid].
  destruct (child_pid =? -1).
  { cbn [fst]. intros H; inversion H. right. auto. }
  destruct (child_pid =? 0).
  { intros H. exfalso. exact (run_child_never_returns _ _ _ H). }
  destruct (negb (background command =? 0));
    cbn [fst]; intros H; inversion H; right; auto.
Qed.

Lemma run_parent command (s : state) :
  (forall rest, args command <> str "exit" :: rest) ->
  (is_external command = true -> snd (k_fork P (Shell.kernel s)) <> 0) ->
  fst (run P W command s) = Returns 1.
Proof.
  unfold run, is_external. intros Hne Hfork.
  destruct (args command) as [|arg0 rest] eqn:A; [reflexivity|].
  destruct (streq arg0 (str "exit")) eqn:E.
  { apply streq_eq in E. subst arg0. exfalso. exact (Hne rest eq_refl). }
  destruct (streq arg0 (str "cd")); [reflexivity|].
  destruct (streq arg0 (str "status")); [reflexivity|].
  specialize (Hfork eq_refl).
  destruct (k_fork P (Shell.kernel s)) as [k child_pid]. cbn [snd] in Hfork.
  destruct (child_pid =? -1); [reflexivity|].
  apply Z.eqb_neq in Hfork. rewrite Hfork.
  destruct (negb (background command =? 0)); reflexivity.
Qed.

Lemma run_forked_child command (s : state) v :
  is_external command = true ->
  snd (k_fork P (Shell.kernel s)) = 0 ->
  fst (run P W command s) <> Returns v.
Proof.
  unfold run, is_external. intros Hx Hfork.
  destruct (args command) as [|arg0 rest]; [discriminate|].
  destruct (streq arg0 (str "exit")); [discriminate|].
  destruct (streq arg0 (str "cd")); [discriminate|].
  destruct (streq arg0 (str "status")); [discriminate|].
  destruct (k_fork P (Shell.kernel s)) as [k child_pid]. cbn [snd] in Hfork.
  subst child_pid. cbn [Z.eqb]. apply run_child_never_returns.
Qed.

(** C10: [run] returns 0 exactly when argv is non-empty and starts with
    [exit]; for the empty command, [cd], [status], a failed [fork] and the
    parent of any child, in the foreground or in the background, it returns
    1; in the forked child it does not return.  So an iteration of [main]
    leaves [running] at 0 only for a line whose command starts with
    [exit]. *)
Theorem run_stops_only_on_exit command (s : state) :
  (fst (run P W command s) = Returns 0
   <-> exists rest, args command = str "exit" :: rest)
  /\ ((forall rest, args command <> str "exit" :: rest) ->
      (is_external command = true -> snd (k_fork P (Shell.kernel s)) <> 0) ->
      fst (run P W command s) = Returns 1)
  /\ (is_external command = true -> snd (k_fork P (Shell.kernel s)) = 0 ->
      forall v, fst (run P W command s) <> Returns v)
  /\ (forall junk line o s',
        main_iteration P W junk line s = Some (o, s') ->
        o = Returns 0 ->
        let s1 := snd (check_background P W junk (Shell.background_pids s) s) in
        exists c0 rest,
          parse (Shell.background s1) (k_getpid P (Shell.kernel s1)) line
          = Some c0
          /\ args c0 = str "exit" :: rest).
Proof.
  split; [split|split; [|split]].
  - intros H. destruct (run_returns _ _ _ H) as [[_ Hx]|[Hv _]];
      [exact Hx | discriminate].
  - intros [rest H]. rewrite (run_exit _ rest _ H). reflexivity.
  - intros Hne Hfork. apply run_parent; assumption.
  - intros Hx Hfork v. apply run_forked_child; assumption.
  - intros junk line o s' H Ho. unfold main_iteration in H.
    destruct (check_background P W junk (Shell.background_pids s) s)
      as [pids s1]. cbn [snd].
    change (Shell.background (printf (str ": ") (with_background_pids s1 pids)))
      with (Shell.background s1) in H.
    change (Shell.kernel (printf (str ": ") (with_background_pids s1 pids)))
      with (Shell.kernel s1) in H.
    destruct (parse (Shell.background s1) (k_getpid P (Shell.kernel s1)) line)
      as [c0|]; [|discriminate].
    exists c0. injection H as Hr.
    pose proof (f_equal fst Hr) as Hf. cbn [fst] in Hf. rewrite Ho in Hf.
    destruct (run_returns _ _ _ Hf) as [[_ [rest Hx]]|[Hv _]];
      [exists rest; split; [reflexivity | exact Hx] | discriminate].
Qed.
End RunProperties.

Lemma run_stops_only_on_exit_witness :
  (forall rest, args (mk_command [str "ls"; str "-l"] None None 0)
                <> str "exit" :: rest)
  /\ (is_external (mk_command [str "ls"; str "-l"] None None 0) = true ->
      snd (k_fork (scripted 77 0 0) (Shell.kernel initial)) <> 0)
  /\ fst (run (scripted 77 0 0) glibc
            (mk_command [str "ls"; str "-l"] None None 0) initial)
     = Returns 1.
Proof.
  split; [intros rest H; discriminate|].
  split; [intros _; discriminate|].
  apply (run_stops_only_on_exit (scripted 77 0 0) glibc
           (mk_command [str "ls"; str "-l"] None None 0) initial).
  - intros rest H; discriminate.
  - intros _; discriminate.
Defined.

(** *** SIGTSTP around the foreground wait *)

Section SignalProperties.
Context {K : Type} (P : posix K) (W : wait_macros).

Local Abbreviation state := (Shell.state K).

Lemma handler_runs_snoc tr e :
  handler_runs (tr ++ [e])
  = (handler_runs tr + match e with Handler _ => 1 | _ => 0 end)%nat.
Proof.
  unfold handler_runs. rewrite filter_app, length_app.
  destruct e; reflexivity.
Qed.

(** While [SIGTSTP] is blocked, no statement but the unblocking one touches
    the mask, the flag or the handler. *)
Lemma do_action_guarded a (s : state) :
  not_unblock a ->
  Shell.blocked s = true ->
  Shell.blocked (do_action P W a s) = true
  /\ Shell.background (do_action P W a s) = Shell.background s
  /\ handler_runs (Shell.trace (do_action P W a s))
     = handler_runs (Shell.trace s).
Proof.
  intros Ha Hb. destruct a; cbn [do_action]; [| | |contradiction].
  - unfold sigprocmask, with_blocked, log.
    cbn [Z.eqb SIG_BLOCK Shell.blocked Shell.background Shell.trace].
    rewrite handler_runs_snoc. auto with arith.
  - unfold waitpid.
    destruct (k_waitpid P (Shell.kernel s) child_pid 0) as [k [result stored]].
    unfold with_status, with_kernel, log.
    cbn [Shell.blocked Shell.background Shell.trace].
    rewrite handler_runs_snoc. auto with arith.
  - destruct (WIFSIGNALED W (Shell.status s)); [|auto].
    unfold print_status.
    destruct (WIFEXITED W (Shell.status s)); unfold printf, log;
      cbn [Shell.blocked Shell.background Shell.trace];
      rewrite handler_runs_snoc; auto with arith.
Qed.

Lemma do_action_block (s : state) :
  Shell.blocked (do_action P W Block s) = true
  /\ Shell.background (do_action P W Block s) = Shell.background s
  /\ handler_runs (Shell.trace (do_action P W Block s))
     = handler_runs (Shell.trace s).
Proof.
  cbn [do_action]. unfold sigprocmask, with_blocked, log.
  cbn [Z.eqb SIG_BLOCK Shell.blocked Shell.background Shell.trace].
  rewrite handler_runs_snoc. auto with arith.
Qed.

Lemma sigtstp_arrives_blocked (s : state) :
  Shell.blocked s = true -> sigtstp_arrives s = with_pending s true.
Proof. intros H. unfold sigtstp_arrives. rewrite H. reflexivity. Qed.

Lemma unblocks_cons a acts :
  unblocks (a :: acts)
  = (match a with Unblock => 1 | _ => 0 end + unblocks acts)%nat.
Proof. unfold unblocks. destruct a; reflexivity. Qed.

Lemma fg_steps_unblocks cfg cfg' :
  fg_steps P W cfg cfg' -> (unblocks (fst cfg') <= unblocks (fst cfg))%nat.
Proof.
  induction 1 as [cfg|cfg1 cfg2 cfg3 Hstep _ IH]; [lia|].
  inversion Hstep; subst; cbn [fst] in *; [|exact IH].
  rewrite unblocks_cons. lia.
Qed.

Lemma fg_steps_guarded cfg cfg' :
  fg_steps P W cfg cfg' ->
  Shell.blocked (snd cfg) = true ->
  unblocks (fst cfg') = unblocks (fst cfg) ->
  Shell.blocked (snd cfg') = true
  /\ Shell.background (snd cfg') = Shell.background (snd cfg)
  /\ handler_runs (Shell.trace (snd cfg'))
     = handler_runs (Shell.trace (snd cfg)).
Proof.
  induction 1 as [cfg|cfg1 cfg2 cfg3 Hstep Hsteps IH]; intros Hb Hu; [auto|].
  pose proof (fg_steps_unblocks _ _ Hsteps) as Hle.
  inversion Hstep; subst; cbn [fst snd] in *.
  - rewrite unblocks_cons in Hu.
    assert (Ha : not_unblock a) by (destruct a; simpl; auto; lia).
    destruct (do_action_guarded a s Ha Hb) as (B1 & B2 & B3).
    destruct IH as (I1 & I2 & I3); [exact B1 | destruct a; simpl in *; lia |].
    repeat split; congruence.
  - rewrite (sigtstp_arrives_blocked s Hb) in *.
    destruct IH as (I1 & I2 & I3); [exact Hb | exact Hu |].
    repeat split; assumption.
Qed.

(** Without any signal, the statements run in order: this is what [run]
    does for a foreground child. *)
Lemma do_actions_steps acts : forall (s : state),
  fg_steps P W (acts, s) ([], do_actions P W acts s).
Proof.
  induction acts as [|a acts IH]; intros s; [apply steps_refl|].
  eapply steps_step; [apply step_action | apply IH].
Qed.

(** C8 (as the code has it): the parent blocks [SIGTSTP] after [fork] has
    returned and before it waits; from then until the unblocking statement,
    which follows the wait and the report of a child killed by a signal,
    however many [SIGTSTP] arrive the mask stays set, the flag keeps its
    value and the handler does not run (so no banner is written); the
    unblocking statement clears the mask and lets one pending toggle
    through. *)
Theorem sigtstp_deferred_until_unblock child_pid (s : state) acts' s' :
  fg_steps P W ([Wait child_pid; Report; Unblock], do_action P W Block s)
               (acts', s') ->
  In Unblock acts' ->
  Shell.blocked s' = true
  /\ Shell.background s' = Shell.background s
  /\ handler_runs (Shell.trace s') = handler_runs (Shell.trace s)
  /\ Shell.blocked (do_action P W Unblock s') = false
  /\ Shell.background (do_action P W Unblock s')
     = if Shell.pending s' then lnot (Shell.background s)
       else Shell.background s.
Proof.
  intros Hsteps Hin.
  pose proof (fg_steps_unblocks _ _ Hsteps) as Hle. cbn [fst] in Hle.
  assert (Hone : unblocks [Wait child_pid; Report; Unblock] = 1%nat)
    by reflexivity.
  assert (Hge : (1 <= unblocks acts')%nat).
  { clear - Hin. induction acts' as [|a acts IH]; [destruct Hin|].
    rewrite unblocks_cons. destruct Hin as [->|Hin]; [lia|].
    specialize (IH Hin). lia. }
  destruct (do_action_block s) as (B1 & B2 & B3).
  destruct (fg_steps_guarded _ _ Hsteps) as (G1 & G2 & G3);
    [exact B1 | cbn [fst]; lia |].
  cbn [fst snd] in *.
  repeat split; try congruence.
  - unfold do_action, sigprocmask. cbn.
    destruct (Shell.pending s'); [|reflexivity].
    unfold deliver_sigtstp, handle_sigtstp, write. cbn.
    destruct (negb (lnot (Shell.background s') =? 0)); reflexivity.
  - unfold do_action, sigprocmask. cbn.
    destruct (Shell.pending s'); [|cbn; congruence].
    unfold deliver_sigtstp, handle_sigtstp, write. cbn.
    destruct (negb (lnot (Shell.background s') =? 0)); cbn; congruence.
Qed.
End SignalProperties.

Lemma sigtstp_deferred_until_unblock_witness :
  fg_steps (scripted 77 0 0) glibc
    ([Wait 77; Report; Unblock],
     do_action (scripted 77 0 0) glibc Block (log initial (Fork 77)))
    ([Unblock],
     sigtstp_arrives
       (do_action (scripted 77 0 0) glibc Report
          (sigtstp_arrives
             (do_action (scripted 77 0 0) glibc (Wait 77)
                (do_action (scripted 77 0 0) glibc Block
                   (log initial (Fork 77)))))))
  /\ In Unblock [Unblock]
  /\ Shell.background
       (sigtstp_arrives
          (do_action (scripted 77 0 0) glibc Report
             (sigtstp_arrives
                (do_action (scripted 77 0 0) glibc (Wait 77)
                   (do_action (scripted 77 0 0) glibc Block
                      (log initial (Fork 77)))))))
     = Shell.background (log initial (Fork 77)).
Proof.
  assert (Hsteps :
    fg_steps (scripted 77 0 0) glibc
      ([Wait 77; Report; Unblock],
       do_action (scripted 77 0 0) glibc Block (log initial (Fork 77)))
      ([Unblock],
       sigtstp_arrives
         (do_action (scripted 77 0 0) glibc Report
            (sigtstp_arrives
               (do_action (scripted 77 0 0) glibc (Wait 77)
                  (do_action (scripted 77 0 0) glibc Block
                     (log initial (Fork 77)))))))).
  { eapply steps_step; [apply step_action|].
    eapply steps_step; [apply step_signal|].
    eapply steps_step; [apply step_action|].
    eapply steps_step; [apply step_signal|].
    apply steps_refl. }
  split; [exact Hsteps|]. split; [left; reflexivity|].
  exact (proj1 (proj2 (sigtstp_deferred_until_unblock (scripted 77 0 0) glibc
                         77 (log initial (Fork 77)) [Unblock] _ Hsteps
                         (or_introl eq_refl)))).
Defined.

(** C8 as stated fails: a [SIGTSTP] that arrives after [fork] has returned
    and before the mask is set runs the handler at once, so the flag is set
    and the banner written between the launch of the child and the
    recording of its status. *)
Lemma sigtstp_between_fork_and_block_toggles :
  fg_steps (scripted 77 0 0) glibc
    (foreground 77, log initial (Fork 77))
    ([Report; Unblock],
     do_action (scripted 77 0 0) glibc (Wait 77)
       (do_action (scripted 77 0 0) glibc Block
          (sigtstp_arrives (log initial (Fork 77)))))
  /\ foreground_only (log initial (Fork 77)) = false
  /\ foreground_only
       (do_action (scripted 77 0 0) glibc (Wait 77)
          (do_action (scripted 77 0 0) glibc Block
             (sigtstp_arrives (log initial (Fork 77))))) = true
  /\ Shell.trace
       (do_action (scripted 77 0 0) glibc (Wait 77)
          (do_action (scripted 77 0 0) glibc Block
             (sigtstp_arrives (log initial (Fork 77)))))
     = [Fork 77; Handler SIGTSTP; Write entering_banner;
        Sigprocmask SIG_BLOCK SIGTSTP; Waitpid 77 0 77].
Proof.
  split; [|repeat split; reflexivity].
  eapply steps_step; [apply step_signal|].
  eapply steps_step; [apply step_action|].
  eapply steps_step; [apply step_action|].
  apply steps_refl.
Qed.

(** *** check_background on the nodes in memory *)

Section MemoryProperties.
Context {K : Type} (P : posix K) (W : wait_macros).

Local Abbreviation state := (Shell.state K).

Lemma store_same h a v : store h a v a = v.
Proof. unfold store. rewrite Nat.eqb_refl. reflexivity. Qed.

Lemma store_other h a v b : b <> a -> store h a v b = h b.
Proof.
  intros H. unfold store. apply Nat.eqb_neq in H. rewrite H. reflexivity.
Qed.

(** Writing outside a chain leaves it as it is. *)
Lemma chain_store h a v cells : forall p q,
  ~ In a (map fst cells) ->
  chain h p cells q -> chain (store h a v) p cells q.
Proof.
  induction cells as [|[b x] cells IH]; intros p q Hn Hc; [exact Hc|].
  destruct Hc as (-> & n & Hb & Hc). cbn in Hn.
  split; [reflexivity|]. exists n. split.
  - rewrite store_other by (intros ->; apply Hn; left; reflexivity). exact Hb.
  - apply IH; [|exact Hc]. intros Hin. apply Hn. right; exact Hin.
Qed.

Lemma chain_snoc h cells : forall p a x n,
  chain h p cells (Some a) -> h a = Some (mk_node x n) ->
  chain h p (cells ++ [(a, x)]) n.
Proof.
  induction cells as [|[b y] cells IH]; intros p a x n Hc Ha.
  - simpl in Hc. subst p. simpl. split; [reflexivity|].
    exists n. split; [exact Ha | reflexivity].
  - destruct Hc as (-> & m & Hb & Hc). simpl. split; [reflexivity|].
    exists m. split; [exact Hb | apply IH; assumption].
Qed.

Lemma chain_snoc_inv h cells : forall p a x q,
  chain h p (cells ++ [(a, x)]) q ->
  chain h p cells (Some a) /\ h a = Some (mk_node x q).
Proof.
  induction cells as [|[b y] cells IH]; intros p a x q Hc.
  - simpl in Hc. destruct Hc as (-> & n & Ha & ->). split; [reflexivity | exact Ha].
  - destruct Hc as (-> & m & Hb & Hc). apply IH in Hc. destruct Hc as [Hc Ha].
    split; [|exact Ha]. simpl. split; [reflexivity|].
    exists m. split; assumption.
Qed.

(** With a node kept before it, the loop in memory is the sweep of the
    specification on the remaining nodes. *)
Lemma check_background_mem_kept cur :
  forall fuel h head ks ap xp bp status (s : state),
  (length cur < fuel)%nat ->
  NoDup (map fst (ks ++ (ap, xp) :: cur)) ->
  chain h head (ks ++ [(ap, xp)]) bp ->
  chain h bp cur None ->
  exists h' cells',
    check_background_mem P W fuel h head (Some ap) bp status s
    = Some (head, h', snd (reap_all P W (map snd cur) status s))
    /\ map snd cells' = fst (reap_all P W (map snd cur) status s)
    /\ chain h' head (ks ++ (ap, xp) :: cells') None.
Proof.
  induction cur as [|[a x] cur IH];
    intros fuel h head ks ap xp bp status s Hf Hnd Hk Hc.
  - simpl in Hc. subst bp. destruct fuel as [|fuel]; [simpl in Hf; lia|].
    exists h, []. repeat split. exact Hk.
  - destruct Hc as (-> & n & Ha & Hc).
    destruct fuel as [|fuel]; [simpl in Hf; lia|]. simpl in Hf.
    cbn [check_background_mem map snd reap_all]. rewrite Ha. cbn [pid next].
    destruct (waitpid P x status WNOHANG s) as [[result status'] s1].
    assert (Hap : ~ In ap (map fst ks) /\ ap <> a /\ ~ In ap (map fst cur)).
    { rewrite map_app in Hnd. cbn [map fst] in Hnd.
      apply NoDup_remove_2 in Hnd. rewrite in_app_iff in Hnd. cbn in Hnd.
      repeat split; intros ?; apply Hnd; auto. }
    assert (Haa : ~ In a (map fst ks) /\ ~ In a (map fst cur)).
    { rewrite map_app in Hnd. cbn [map fst] in Hnd.
      change (map fst ks ++ ap :: a :: map fst cur)
        with (map fst ks ++ [ap] ++ a :: map fst cur) in Hnd.
      rewrite app_assoc in Hnd.
      apply NoDup_remove_2 in Hnd. rewrite !in_app_iff in Hnd.
      split; intros ?; apply Hnd; auto. }
    destruct Hap as (Hap1 & Hap2 & Hap3). destruct Haa as (Haa1 & Haa2).
    destruct (negb (result =? 0)).
    + (* the node is unlinked *)
      destruct (chain_snoc_inv _ _ _ _ _ _ Hk) as [Hks Hp]. rewrite Hp.
      cbn [pid next].
      rewrite store_other by exact Hap2. rewrite store_same.
      set (h2 := store (store h ap (Some (mk_node xp n))) a None).
      set (s2 := print_status W status' _).
      destruct (IH fuel h2 head ks ap xp n status' s2) as (h' & cells' & E & M & C).
      * lia.
      * rewrite map_app in *. cbn [map fst] in *.
        change (map fst ks ++ ap :: a :: map fst cur)
          with (map fst ks ++ [ap] ++ a :: map fst cur) in Hnd.
        rewrite app_assoc in Hnd. apply NoDup_remove_1 in Hnd.
        rewrite <- app_assoc in Hnd. exact Hnd.
      * apply chain_snoc.
        -- unfold h2. apply chain_store; [exact Haa1|].
           apply chain_store; [exact Hap1 | exact Hks].
        -- unfold h2. rewrite store_other by exact Hap2. apply store_same.
      * unfold h2. apply chain_store; [exact Haa2|].
        apply chain_store; [exact Hap3 | exact Hc].
      * exists h', cells'. repeat split; assumption.
    + (* the node is kept *)
      rewrite Ha. cbn [next].
      destruct (IH fuel h head (ks ++ [(ap, xp)]) a x n status' s1)
        as (h' & cells' & E & M & C).
      * lia.
      * rewrite <- app_assoc. exact Hnd.
      * apply chain_snoc; assumption.
      * exact Hc.
      * exists h', ((a, x) :: cells').
        destruct (reap_all P W (map snd cur) status' s1) as [l s'].
        cbn [fst snd] in *. rewrite E. repeat split.
        -- cbn [map snd]. rewrite M. reflexivity.
        -- rewrite <- app_assoc in C. exact C.
Qed.

(** The loop in memory computes the list [check_background] computes: given
    the nodes of the registry at distinct addresses and fuel for one turn
    more than there are nodes, it returns, and what it returns is the head
    of a list holding the identifiers [check_background] returns, after the
    same trace. *)
Lemma check_background_mem_refines cells fuel h p junk (s : state) :
  (length cells < fuel)%nat ->
  NoDup (map fst cells) ->
  chain h p cells None ->
  exists head' h' cells',
    check_background_mem P W fuel h p None p junk s
    = Some (head', h', snd (check_background P W junk (map snd cells) s))
    /\ map snd cells' = fst (check_background P W junk (map snd cells) s)
    /\ chain h' head' cells' None.
Proof.
  intros Hf Hnd Hc. unfold check_background.
  destruct cells as [|[a x] cells].
  { simpl in Hc. subst p. destruct fuel as [|fuel]; [simpl in Hf; lia|].
    exists None, h, []. repeat split. }
  destruct Hc as (-> & n & Ha & Hc).
  destruct fuel as [|fuel]; [simpl in Hf; lia|]. simpl in Hf.
  cbn [check_background_mem map snd check_loop]. rewrite Ha. cbn [pid next].
  destruct (waitpid P x junk WNOHANG s) as [[result status'] s1].
  cbn [map fst] in Hnd. pose proof (NoDup_cons_iff a (map fst cells)) as Hiff.
  apply Hiff in Hnd. destruct Hnd as [Hna Hnd].
  destruct (negb (result =? 0)).
  - (* the head is unlinked *)
    set (s2 := print_status W status' _).
    destruct cells as [|[b y] cells].
    + simpl in Hc. subst n.
      destruct fuel as [|fuel]; [simpl in Hf; lia|].
      exists None, (store h a None), []. repeat split.
    + destruct Hc as (-> & nb & Hb & Hc). cbn [map snd].
      assert (Hba : b <> a) by (intros ->; apply Hna; left; reflexivity).
      rewrite store_other by exact Hba. rewrite Hb. cbn [next].
      rewrite check_loop_reap_all by discriminate.
      destruct (check_background_mem_kept cells fuel (store h a None)
                  (Some b) [] b y nb status' s2)
        as (h' & cells' & E & M & C).
      * simpl in Hf. lia.
      * exact Hnd.
      * simpl. split; [reflexivity|]. exists nb. split; [|reflexivity].
        rewrite store_other by exact Hba. exact Hb.
      * apply chain_store; [|exact Hc].
        intros Hin. apply Hna. right. exact Hin.
      * exists (Some b), h', ((b, y) :: cells').
        destruct (reap_all P W (map snd cells) status' s2) as [l s'].
        cbn [fst snd] in *. rewrite E. split; [reflexivity|]. split.
        -- cbn [map snd app]. rewrite M. reflexivity.
        -- exact C.
  - (* the head is kept *)
    rewrite Ha. cbn [next].
    rewrite check_loop_reap_all by discriminate.
    destruct (check_background_mem_kept cells fuel h (Some a) [] a x n
                status' s1) as (h' & cells' & E & M & C).
    + lia.
    + apply Hiff. split; assumption.
    + simpl. split; [reflexivity|]. exists n. split; [exact Ha | reflexivity].
    + exact Hc.
    + exists (Some a), h', ((a, x) :: cells').
      destruct (reap_all P W (map snd cells) status' s1) as [l s'].
      cbn [fst snd] in *. rewrite E. split; [reflexivity|]. split.
      * cbn [map snd app]. rewrite M. reflexivity.
      * exact C.
Qed.
End MemoryProperties.

(** C4: with two finished children in the registry one sweep waits for the
    first only: it is announced and unlinked, the second becomes the head
    without having been waited for, although a sweep that waits for every
    identifier would have removed both. *)
Theorem sweep_skips_node_after_reaped_head :
  option_map (fun r => (fst (fst r), waited (Shell.trace (snd r))))
    (check_background_mem (scripted 0 0 0) glibc 3 two_nodes
       (Some 1%nat) None (Some 1%nat) 0 initial)
  = Some (Some 2%nat, [102])
  /\ chain two_nodes (Some 1%nat) [(1%nat, 102); (2%nat, 101)] None
  /\ fst (check_background (scripted 0 0 0) glibc 0 [102; 101] initial) = [101]
  /\ waited (Shell.trace
        (snd (check_background (scripted 0 0 0) glibc 0 [102; 101] initial)))
     = [102]
  /\ stdout (Shell.trace
        (snd (check_background (scripted 0 0 0) glibc 0 [102; 101] initial)))
     = str "background pid 102 is done: exit value 0" ++ [LF]
  /\ fst (reap_all (scripted 0 0 0) glibc [102; 101] 0 initial) = [].
Proof.
  split; [reflexivity|]. split.
  - simpl. split; [reflexivity|]. eexists. split; [reflexivity|].
    split; [reflexivity|]. eexists. split; reflexivity.
  - repeat split; reflexivity.
Qed.

(** ** More on the parser *)

Lemma walk_app returns a b mc :
  walk returns (a ++ b) mc = walk returns b (walk returns a mc).
Proof. unfold walk. apply fold_left_app. Qed.

(** Without redirection operators every token is an argument and nothing
    else changes. *)
Lemma walk_plain toks : forall c0,
  Forall (fun t => is_redirect t = false) toks ->
  walk false toks (ARG, c0) = (ARG, set_args c0 (args c0 ++ toks)).
Proof.
  unfold walk.
  induction toks as [|t toks IH]; intros c0 H; cbn [fold_left].
  - rewrite app_nil_r. destruct c0; reflexivity.
  - inversion H as [|? ? Ht Hr]; subst. unfold is_redirect in Ht.
    apply orb_false_iff in Ht. destruct Ht as [H1 H2].
    replace (walk_token false (ARG, c0) t)
      with (ARG, set_args c0 (args c0 ++ [t]))
      by (unfold walk_token; rewrite H1, H2; reflexivity).
    rewrite (IH _ Hr). cbn [args set_args]. rewrite <- app_assoc.
    reflexivity.
Qed.

Lemma split_tokens_word delim w : forall cur r,
  (forall ch, In ch w -> is_delim delim ch = false) ->
  split_tokens delim cur (w ++ r) = split_tokens delim (cur ++ w) r.
Proof.
  induction w as [|x w IH]; intros cur r Hw.
  - rewrite app_nil_r. reflexivity.
  - cbn [app split_tokens]. rewrite (Hw x) by (left; reflexivity).
    rewrite IH by (intros ch Hc; apply Hw; right; exact Hc).
    rewrite <- app_assoc. reflexivity.
Qed.

(** Words without blanks, joined by spaces, are the tokens of the line. *)
Lemma tokens_unwords ws :
  Forall (clean_token whitespace) ws ->
  tokens whitespace (unwords ws ++ [LF]) = ws.
Proof.
  unfold tokens.
  induction ws as [|w ws IH]; intros H; [reflexivity|].
  inversion H as [|? ? [Hne Hw] Hr]; subst.
  destruct ws as [|w' ws'].
  - cbn [unwords]. rewrite split_tokens_word by exact Hw.
    destruct w; [contradiction | reflexivity].
  - change (unwords (w :: w' :: ws'))
      with (w ++ " "%char :: unwords (w' :: ws')).
    rewrite <- app_assoc, split_tokens_word by exact Hw.
    cbn [app]. destruct w as [|x w]; [contradiction|].
    cbn [split_tokens]. change (is_delim whitespace " ") with true. cbv iota.
    f_equal. apply IH. exact Hr.
Qed.

Lemma no_pair_snoc s ch :
  no_pair s -> ch <> "$"%char -> no_pair (s ++ [ch]).
Proof.
  intros Hs Hc. induction s as [|x s IH]; [exact I|].
  destruct s as [|y s'].
  - simpl. split; [intros [_ E]; contradiction | exact I].
  - destruct Hs as [Hxy Hs]. split; [exact Hxy | apply IH; exact Hs].
Qed.

Lemma last_snoc_marker (u pre : cstring) (x y z : ascii) :
  u ++ [z] = pre ++ [x; y] -> last u " "%char = x /\ z = y.
Proof.
  intros E.
  change (pre ++ [x; y]) with (pre ++ [x] ++ [y]) in E.
  rewrite app_assoc in E. apply app_inj_tail in E. destruct E as [-> ->].
  split; [apply last_last | reflexivity].
Qed.

(** X1: a list of words without blanks, [$$], [<] or [>], whose first
    character is not [#] and whose last is not [&], written on one line with
    single spaces and a newline, parses back to exactly that argv, with no
    redirection and in the foreground. *)
Theorem parse_unwords_round_trip bg pid argv :
  Forall (clean_token whitespace) argv ->
  Forall (fun a => is_redirect a = false) argv ->
  no_pair (unwords argv) ->
  char_at (unwords argv) 0 <> "#"%char ->
  last (unwords argv) " "%char <> "&"%char ->
  (length (unwords argv) < LEN_INPUT - 1)%nat ->
  (length argv <= N_ARGS)%nat ->
  parse bg pid (unwords argv ++ [LF])
  = Some {| args := argv; input_file := None; output_file := None;
            background := 0 |}.
Proof.
  intros Hclean Hred Hpair Hhash Hamp Hlen Hargs.
  assert (Hsub : substitute_pid (decimal pid) (unwords argv ++ [LF])
                 = unwords argv ++ [LF]).
  { apply substitute_pid_no_pair. apply no_pair_snoc; [exact Hpair|].
    discriminate. }
  assert (Hstrip : strip_marker (unwords argv ++ [LF])
                   = (false, unwords argv ++ [LF])).
  { apply strip_marker_unmarked. intros pre y E.
    apply last_snoc_marker in E. destruct E as [E _]. contradiction. }
  assert (Hplan : plan bg (unwords argv ++ [LF])
                  = {| args := argv; input_file := None; output_file := None;
                       background := 0 |}).
  { unfold plan. rewrite Hstrip, tokens_unwords by exact Hclean.
    rewrite walk_plain by exact Hred. reflexivity. }
  unfold parse. rewrite parse_full_spec.
  replace (Ascii.eqb (char_at (unwords argv ++ [LF]) 0) "#") with false.
  - cbv zeta. rewrite Hsub, Hplan. cbn [args].
    replace (LEN_INPUT <=? length (unwords argv ++ [LF]))%nat with false
      by (symmetry; apply Nat.leb_gt; rewrite length_app; simpl; lia).
    apply Nat.leb_le in Hargs. rewrite Hargs. reflexivity.
  - symmetry. apply Ascii.eqb_neq.
    destruct (unwords argv) as [|x u]; [discriminate | exact Hhash].
Qed.

Lemma parse_unwords_round_trip_witness :
  parse 1 4242 (unwords [str "ls"; str "-l"; str "a$b"] ++ [LF])
  = Some {| args := [str "ls"; str "-l"; str "a$b"]; input_file := None;
            output_file := None; background := 0 |}.
Proof.
  apply (parse_unwords_round_trip 1 4242 [str "ls"; str "-l"; str "a$b"]).
  - repeat constructor; try discriminate;
      intros ch Hc; simpl in Hc;
      repeat (destruct Hc as [<-|Hc]; [reflexivity|]); destruct Hc.
  - repeat constructor.
  - simpl. repeat split; intros [A B]; discriminate.
  - discriminate.
  - discriminate.
  - apply Nat.ltb_lt. reflexivity.
  - apply Nat.leb_le. reflexivity.
Defined.

Lemma tokens_blank s :
  Forall (fun ch => is_delim whitespace ch = true) s ->
  tokens whitespace s = [].
Proof.
  unfold tokens. induction 1 as [|ch s Hc _ IH]; [reflexivity|].
  cbn [split_tokens]. rewrite Hc. exact IH.
Qed.

Lemma no_pair_without_dollar s :
  ~ In "$"%char s -> no_pair s.
Proof.
  induction s as [|x s IH]; intros H; [exact I|].
  destruct s as [|y s']; [exact I|]. split.
  - intros [-> _]. apply H. left. reflexivity.
  - apply IH. intros Hin. apply H. right. exact Hin.
Qed.

(** A line of spaces and newlines gives the empty command and no output. *)
Lemma parse_full_blank bg pid input :
  Forall (fun ch => is_delim whitespace ch = true) input ->
  (length input < LEN_INPUT)%nat ->
  parse_full bg pid input = Some (create_command, []).
Proof.
  intros Hblank Hlen. rewrite Forall_forall in Hblank.
  assert (Hnot : forall ch, is_delim whitespace ch = false -> ~ In ch input).
  { intros ch Hd Hin. rewrite (Hblank ch Hin) in Hd. discriminate. }
  assert (Hsub : substitute_pid (decimal pid) input = input).
  { apply substitute_pid_no_pair, no_pair_without_dollar, Hnot. reflexivity. }
  assert (Hstrip : strip_marker input = (false, input)).
  { apply strip_marker_unmarked. intros pre y ->.
    apply (Hnot "&"%char); [reflexivity|].
    apply in_or_app. right. left. reflexivity. }
  rewrite parse_full_spec.
  replace (Ascii.eqb (char_at input 0) "#") with false.
  - cbv zeta. rewrite Hsub. apply Nat.leb_gt in Hlen. rewrite Hlen.
    unfold plan. rewrite Hstrip, tokens_blank; [reflexivity|].
    apply Forall_forall. exact Hblank.
  - symmetry. apply Ascii.eqb_neq. destruct input as [|x r]; [discriminate|].
    intros E. apply (Hnot "#"%char); [reflexivity|]. left. exact E.
Qed.

(** X2: a line made of spaces and newlines only, the empty line that
    [fgets] leaves at end of input included, parses to the empty command
    whatever the mode and the process identifier. *)
Theorem parse_blank_line bg pid input :
  Forall (fun ch => is_delim whitespace ch = true) input ->
  (length input < LEN_INPUT)%nat ->
  parse bg pid input = Some create_command.
Proof.
  intros Hblank Hlen. unfold parse.
  rewrite (parse_full_blank bg pid input Hblank Hlen). reflexivity.
Qed.

Lemma parse_blank_line_witness :
  parse 0 4242 (str "   " ++ [LF]) = Some create_command.
Proof.
  apply (parse_blank_line 0 4242 (str "   " ++ [LF])).
  - repeat constructor.
  - apply Nat.ltb_lt. reflexivity.
Defined.

(** X3: [parse] writes out of bounds exactly on a line that is not a
    comment and whose expansion has [LEN_INPUT] characters or more, or
    whose tokens before the first redirection operator (the marker left
    out) number more than [N_ARGS]. *)
Theorem parse_overflows_iff bg pid input :
  parse bg pid input = None
  <-> Ascii.eqb (char_at input 0) "#" = false
      /\ ((LEN_INPUT <= length (expand pid input))%nat
          \/ (N_ARGS < length (leading_args
                (tokens whitespace (snd (strip_marker (expand pid input))))))%nat).
Proof.
  unfold parse. rewrite parse_full_spec, expand_spec.
  destruct (Ascii.eqb (char_at input 0) "#").
  { split; [discriminate | intros [H _]; discriminate]. }
  cbv zeta. rewrite <- plan_args with (bg := bg).
  destruct (LEN_INPUT <=? _)%nat eqn:L.
  { apply Nat.leb_le in L. split; [auto | reflexivity]. }
  apply Nat.leb_gt in L.
  destruct (length (args _) <=? N_ARGS)%nat eqn:A.
  - apply Nat.leb_le in A. split; [discriminate|].
    intros [_ [H|H]]; lia.
  - apply Nat.leb_gt in A. split; [auto | reflexivity].
Qed.

Lemma substitute_pid_replicate text n :
  substitute_pid text (replicate n (str "$$")) = replicate n text.
Proof.
  unfold replicate. induction n as [|n IH]; [reflexivity|].
  cbn [repeat concat]. rewrite substitute_pid_pair, IH. reflexivity.
Qed.

Lemma length_replicate n (s : cstring) :
  length (replicate n s) = (n * length s)%nat.
Proof.
  unfold replicate. induction n as [|n IH]; [reflexivity|].
  cbn [repeat concat]. rewrite length_app, IH. reflexivity.
Qed.

(** X4: the expansion can overflow [expanded_input]: a line of [n] pairs
    [$$] does as soon as [n] times the number of digits of the process
    identifier reaches [LEN_INPUT]; with three digits or more a line of the
    2048 characters [fgets] can deliver is enough. *)
Theorem parse_expansion_overflows bg pid n :
  (LEN_INPUT <= n * length (decimal pid))%nat ->
  parse bg pid (replicate n (str "$$")) = None.
Proof.
  intros H. unfold parse. rewrite parse_full_spec.
  replace (Ascii.eqb (char_at (replicate n (str "$$")) 0) "#") with false
    by (destruct n; reflexivity).
  cbv zeta. rewrite substitute_pid_replicate, length_replicate.
  apply Nat.leb_le in H. rewrite H. reflexivity.
Qed.

Lemma parse_expansion_overflows_witness :
  (length (replicate 1024 (str "$$")) < LEN_INPUT)%nat
  /\ parse 1 4242 (replicate 1024 (str "$$")) = None.
Proof.
  split; [apply Nat.ltb_lt; reflexivity|].
  apply (parse_expansion_overflows 1 4242 1024).
  apply Nat.leb_le. reflexivity.
Defined.


Lemma names_after_cons op t toks f :
  names_after op toks f -> names_after op (t :: toks) f.
Proof.
  intros (before & after & -> & Hin & Hr).
  exists (t :: before), after. repeat split; assumption.
Qed.

Lemma names_after_here op toks f :
  In f toks -> is_redirect f = false -> names_after op (op :: toks) f.
Proof. intros Hin Hr. exists [], toks. repeat split; assumption. Qed.

(** One step of the walk, by cases. *)
Lemma walk_token_cases m c0 t :
  (t = str "<" /\ walk_token false (m, c0) t = (EXPECT_IN, c0))
  \/ (t = str ">" /\ walk_token false (m, c0) t = (EXPECT_OUT, c0))
  \/ (is_redirect t = false
      /\ walk_token false (m, c0) t
         = match m with
           | ARG => (ARG, set_args c0 (args c0 ++ [t]))
           | EXPECT_IN => (EXPECT_IN, set_input_file c0 t)
           | EXPECT_OUT => (EXPECT_OUT, set_output_file c0 t)
           end).
Proof.
  unfold walk_token, is_redirect.
  destruct (streq t (str "<")) eqn:E1.
  { left. apply streq_eq in E1. auto. }
  destruct (streq t (str ">")) eqn:E2.
  { right; left. apply streq_eq in E2. auto. }
  right; right. split; [reflexivity | destruct m; reflexivity].
Qed.

Lemma walk_input_file toks : forall m c0 f,
  input_file (snd (walk false toks (m, c0))) = Some f ->
  input_file c0 = Some f
  \/ names_after (str "<") toks f
  \/ (m = EXPECT_IN /\ In f toks /\ is_redirect f = false).
Proof.
  unfold walk.
  induction toks as [|t toks IH]; intros m c0 f H; cbn [fold_left] in H;
    [left; exact H|].
  destruct (walk_token_cases m c0 t) as [[-> E]|[[-> E]|[Hr E]]];
    rewrite E in H; clear E.
  - destruct (IH _ _ _ H) as [H1|[H2|(_ & H3 & H4)]].
    + left; exact H1.
    + right; left. apply names_after_cons. exact H2.
    + right; left. apply names_after_here; assumption.
  - destruct (IH _ _ _ H) as [H1|[H2|(H3 & _)]].
    + left; exact H1.
    + right; left. apply names_after_cons. exact H2.
    + discriminate.
  - destruct m.
    + destruct (IH _ _ _ H) as [H1|[H2|(H3 & _)]].
      * left; exact H1.
      * right; left. apply names_after_cons. exact H2.
      * discriminate.
    + destruct (IH _ _ _ H) as [H1|[H2|(_ & H3 & H4)]].
      * cbn in H1. inversion H1; subst. right; right.
        repeat split; [left; reflexivity | exact Hr].
      * right; left. apply names_after_cons. exact H2.
      * right; right. repeat split; [right; exact H3 | exact H4].
    + destruct (IH _ _ _ H) as [H1|[H2|(H3 & _)]].
      * left; exact H1.
      * right; left. apply names_after_cons. exact H2.
      * discriminate.
Qed.

Lemma walk_output_file toks : forall m c0 f,
  output_file (snd (walk false toks (m, c0))) = Some f ->
  output_file c0 = Some f
  \/ names_after (str ">") toks f
  \/ (m = EXPECT_OUT /\ In f toks /\ is_redirect f = false).
Proof.
  unfold walk.
  induction toks as [|t toks IH]; intros m c0 f H; cbn [fold_left] in H;
    [left; exact H|].
  destruct (walk_token_cases m c0 t) as [[-> E]|[[-> E]|[Hr E]]];
    rewrite E in H; clear E.
  - destruct (IH _ _ _ H) as [H1|[H2|(H3 & _)]].
    + left; exact H1.
    + right; left. apply names_after_cons. exact H2.
    + discriminate.
  - destruct (IH _ _ _ H) as [H1|[H2|(_ & H3 & H4)]].
    + left; exact H1.
    + right; left. apply names_after_cons. exact H2.
    + right; left. apply names_after_here; assumption.
  - destruct m.
    + destruct (IH _ _ _ H) as [H1|[H2|(H3 & _)]].
      * left; exact H1.
      * right; left. apply names_after_cons. exact H2.
      * discriminate.
    + destruct (IH _ _ _ H) as [H1|[H2|(H3 & _)]].
      * left; exact H1.
      * right; left. apply names_after_cons. exact H2.
      * discriminate.
    + destruct (IH _ _ _ H) as [H1|[H2|(_ & H3 & H4)]].
      * cbn in H1. inversion H1; subst. right; right.
        repeat split; [left; reflexivity | exact Hr].
      * right; left. apply names_after_cons. exact H2.
      * right; right. repeat split; [right; exact H3 | exact H4].
Qed.

(** The command of a line that is no comment, as the walk over its tokens. *)
Lemma parse_walk bg pid input cmd0 :
  parse bg pid input = Some cmd0 ->
  Ascii.eqb (char_at input 0) "#" = false ->
  exists start,
    input_file start = None /\ output_file start = None
    /\ cmd0 = snd (walk false
                     (tokens whitespace (snd (strip_marker (expand pid input))))
                     (ARG, start)).
Proof.
  intros H Hc. destruct (parse_some bg pid input cmd0 H Hc) as [-> _].
  rewrite expand_spec. unfold plan.
  destruct (strip_marker _) as [marked line]. cbn [snd].
  exists (if marked then set_background create_command bg else create_command).
  destruct marked; repeat split.
Qed.

(** X5: a file name in the parsed command is always a token of the line
    that is no operator and stands after a [<] (for input_file) or a [>]
    (for output_file); so a line without a [<] token leaves input_file
    unset, and a [<] or [>] with nothing after it sets nothing. *)
Theorem redirection_names_follow_operator bg pid input cmd0 :
  parse bg pid input = Some cmd0 ->
  Ascii.eqb (char_at input 0) "#" = false ->
  (forall f, input_file cmd0 = Some f ->
     names_after (str "<")
       (tokens whitespace (snd (strip_marker (expand pid input)))) f)
  /\ (forall f, output_file cmd0 = Some f ->
        names_after (str ">")
          (tokens whitespace (snd (strip_marker (expand pid input)))) f).
Proof.
  intros H Hc.
  destruct (parse_walk bg pid input cmd0 H Hc) as (start & Hi & Ho & ->).
  split; intros f Hf.
  - destruct (walk_input_file _ _ _ _ Hf) as [H1|[H2|(H3 & _)]];
      [congruence | exact H2 | discriminate].
  - destruct (walk_output_file _ _ _ _ Hf) as [H1|[H2|(H3 & _)]];
      [congruence | exact H2 | discriminate].
Qed.

Lemma redirection_names_follow_operator_witness :
  names_after (str "<")
    (tokens whitespace
       (snd (strip_marker (expand 4242 (str "wc -l < in.txt" ++ [LF])))))
    (str "in.txt").
Proof.
  apply (redirection_names_follow_operator 1 4242
           (str "wc -l < in.txt" ++ [LF])
           {| args := [str "wc"; str "-l"]; input_file := Some (str "in.txt");
              output_file := None; background := 0 |});
    reflexivity.
Defined.

(** X6: whatever the line, the loop never reaches its final [else]: the
    text [Error parsing input] is never printed. *)
Theorem parse_never_prints bg pid input cmd0 out :
  parse_full bg pid input = Some (cmd0, out) -> out = [].
Proof.
  rewrite parse_full_spec.
  destruct (Ascii.eqb _ _); [intros H; inversion H; reflexivity|].
  cbv zeta. destruct (LEN_INPUT <=? _)%nat; [discriminate|].
  destruct (_ <=? N_ARGS)%nat; [|discriminate].
  intros H; inversion H; reflexivity.
Qed.

Lemma parse_never_prints_witness :
  match parse_full 1 4242 (str "cat < in > out &" ++ [LF]) with
  | Some (_, out) => out = []
  | None => True
  end.
Proof.
  destruct (parse_full 1 4242 (str "cat < in > out &" ++ [LF]))
    as [[c0 out]|] eqn:E; [|exact I].
  exact (parse_never_prints 1 4242 _ c0 out E).
Defined.

Lemma walk_names_in names : forall c0,
  names <> [] ->
  Forall (fun t => is_redirect t = false) names ->
  input_file (snd (walk false names (EXPECT_IN, c0))) = Some (last names []).
Proof.
  unfold walk.
  induction names as [|t names IH]; intros c0 Hne H; [contradiction|].
  inversion H as [|? ? Ht Hr]; subst. cbn [fold_left].
  destruct (walk_token_cases EXPECT_IN c0 t) as [[-> _]|[[-> _]|[_ E]]];
    try discriminate.
  rewrite E. destruct names as [|t' names']; [reflexivity|].
  rewrite IH by (discriminate || exact Hr). reflexivity.
Qed.

Lemma walk_names_out names : forall c0,
  names <> [] ->
  Forall (fun t => is_redirect t = false) names ->
  output_file (snd (walk false names (EXPECT_OUT, c0))) = Some (last names []).
Proof.
  unfold walk.
  induction names as [|t names IH]; intros c0 Hne H; [contradiction|].
  inversion H as [|? ? Ht Hr]; subst. cbn [fold_left].
  destruct (walk_token_cases EXPECT_OUT c0 t) as [[-> _]|[[-> _]|[_ E]]];
    try discriminate.
  rewrite E. destruct names as [|t' names']; [reflexivity|].
  rewrite IH by (discriminate || exact Hr). reflexivity.
Qed.

(** X7: the last redirection of a line wins, and so does the last name
    after it: when the tokens end with [<] followed by one or more tokens
    that are no operators, input_file is the last of them, whatever came
    before; likewise output_file after a final [>]. *)
Theorem last_redirection_wins bg pid input cmd0 before names :
  parse bg pid input = Some cmd0 ->
  Ascii.eqb (char_at input 0) "#" = false ->
  names <> [] ->
  Forall (fun t => is_redirect t = false) names ->
  (tokens whitespace (snd (strip_marker (expand pid input)))
   = before ++ str "<" :: names ->
   input_file cmd0 = Some (last names []))
  /\ (tokens whitespace (snd (strip_marker (expand pid input)))
      = before ++ str ">" :: names ->
      output_file cmd0 = Some (last names [])).
Proof.
  intros H Hc Hne Hnames.
  destruct (parse_walk bg pid input cmd0 H Hc) as (start & _ & _ & ->).
  split; intros ->.
  - change (before ++ str "<" :: names)
      with (before ++ [str "<"] ++ names).
    rewrite !walk_app. destruct (walk false before (ARG, start)) as [m1 c1].
    replace (walk false [str "<"] (m1, c1)) with (EXPECT_IN, c1)
      by reflexivity.
    apply walk_names_in; assumption.
  - change (before ++ str ">" :: names)
      with (before ++ [str ">"] ++ names).
    rewrite !walk_app. destruct (walk false before (ARG, start)) as [m1 c1].
    replace (walk false [str ">"] (m1, c1)) with (EXPECT_OUT, c1)
      by reflexivity.
    apply walk_names_out; assumption.
Qed.

Lemma last_redirection_wins_witness :
  input_file {| args := [str "sort"]; input_file := Some (str "c");
                output_file := Some (str "b"); background := 0 |}
  = Some (last [str "c"] []).
Proof.
  apply (last_redirection_wins 1 4242 (str "sort < a > b < c" ++ [LF])
           {| args := [str "sort"]; input_file := Some (str "c");
              output_file := Some (str "b"); background := 0 |}
           [str "sort"; str "<"; str "a"; str ">"; str "b"] [str "c"]);
    try reflexivity.
  - discriminate.
  - repeat constructor.
Defined.

(** ** More on the process *)

Ltac sh_simpl :=
  cbn [Shell.background Shell.status Shell.background_pids Shell.blocked
       Shell.pending Shell.trace Shell.kernel with_background with_status
       with_background_pids with_blocked with_pending with_kernel log printf
       write fst snd] in *.

Section ProcessExtras.
Context {K : Type} (P : posix K) (W : wait_macros).

Local Abbreviation state := (Shell.state K).

Lemma same_shell_refl (s : state) : same_shell s s.
Proof. repeat split. Qed.

Lemma same_shell_trans (s1 s2 s3 : state) :
  same_shell s1 s2 -> same_shell s2 s3 -> same_shell s1 s3.
Proof.
  unfold same_shell. intros (A1 & A2 & A3 & A4 & A5) (B1 & B2 & B3 & B4 & B5).
  repeat split; congruence.
Qed.

Lemma new_events_app (s s' : state) evs :
  Shell.trace s' = Shell.trace s ++ evs -> new_events s s' = evs.
Proof.
  intros H. unfold new_events. rewrite H, skipn_app, skipn_all, Nat.sub_diag.
  reflexivity.
Qed.

(** *** The handler, any number of times *)

(** X8: [n] runs of the handler leave the flag as it was when [n] is even
    and flip it when [n] is odd; they write [n] banners and touch neither
    Last Status, nor the registry, nor the signal mask. *)
Theorem handler_runs_flip_by_parity n (s : state) :
  foreground_only (Nat.iter n (handle_sigtstp SIGTSTP) s)
  = xorb (Nat.odd n) (foreground_only s)
  /\ Shell.status (Nat.iter n (handle_sigtstp SIGTSTP) s) = Shell.status s
  /\ Shell.background_pids (Nat.iter n (handle_sigtstp SIGTSTP) s)
     = Shell.background_pids s
  /\ Shell.blocked (Nat.iter n (handle_sigtstp SIGTSTP) s) = Shell.blocked s
  /\ length (Shell.trace (Nat.iter n (handle_sigtstp SIGTSTP) s))
     = (length (Shell.trace s) + n)%nat.
Proof.
  induction n as [|n (IH1 & IH2 & IH3 & IH4 & IH5)].
  - simpl. destruct (foreground_only s); repeat split; lia.
  - rewrite Nat.iter_succ, handle_sigtstp_spec.
    rewrite Nat.odd_succ, <- Nat.negb_odd.
    destruct (foreground_only (Nat.iter n (handle_sigtstp SIGTSTP) s)) eqn:F;
      unfold foreground_only in *; sh_simpl; rewrite ?length_app; cbn [length];
      repeat split; try congruence; try lia;
      destruct (Nat.odd n), (Shell.background s =? 0); simpl in *; congruence.
Qed.

(** *** redirect, whatever the kernel answers *)

(** X9: [redirect] returns 0 exactly when [open] and [dup2] both succeed,
    and 1 otherwise; it calls [dup2] onto descriptor 1 for the flags
    [O_WRONLY | O_CREAT] and onto 0 for any other; when both calls succeed
    it prints nothing, and it changes the status only when [open] fails
    (a failed [dup2] prints [Error redirecting] and leaves it). *)
Theorem redirect_result file_name flag error (s : state) :
  let opened := k_open P (Shell.kernel s) file_name flag 511 in
  let target := if flag =? Z.lor O_WRONLY O_CREAT then 1 else 0 in
  let dup := k_dup2 P (fst opened) (snd opened) target in
  let r := redirect P file_name flag error s in
  (fst r = 0 <-> snd opened <> -1 /\ snd dup <> -1)
  /\ (fst r = 0 \/ fst r = 1)
  /\ (fst r = 0 ->
      new_events s (snd r)
      = [Open file_name flag (snd opened); Dup2 (snd opened) target (snd dup)])
  /\ (snd opened <> -1 -> Shell.status (snd r) = Shell.status s)
  /\ (snd opened <> -1 -> snd dup = -1 ->
      stdout (new_events s (snd r)) = str "Error redirecting " ++ error ++ [LF]).
Proof.
  cbv zeta. unfold redirect.
  destruct (k_open P (Shell.kernel s) file_name flag 511) as [k fd].
  cbn [fst snd].
  destruct (fd =? -1) eqn:Efd.
  { apply Z.eqb_eq in Efd. subst fd. cbn [fst snd].
    split; [split; [discriminate | intros [H _]; contradiction]|].
    split; [right; reflexivity|].
    split; [discriminate|].
    split; intros H; contradiction. }
  apply Z.eqb_neq in Efd. sh_simpl.
  destruct (k_dup2 P k fd (if flag =? Z.lor O_WRONLY O_CREAT then 1 else 0))
    as [k2 r2]. cbn [fst snd].
  destruct (r2 =? -1) eqn:Er.
  - apply Z.eqb_eq in Er. subst r2. cbn [fst snd]. sh_simpl.
    split; [split; [discriminate | intros [_ H]; contradiction]|].
    split; [right; reflexivity|].
    split; [discriminate|].
    split; [reflexivity|].
    intros _ _. erewrite new_events_app
      by (sh_simpl; rewrite <- !app_assoc; reflexivity).
    cbn. rewrite app_nil_r. reflexivity.
  - apply Z.eqb_neq in Er. cbn [fst snd]. sh_simpl.
    split; [split; [auto | reflexivity]|].
    split; [left; reflexivity|].
    split; [|split; [reflexivity | intros _ H; contradiction]].
    intros _. apply new_events_app. sh_simpl. rewrite <- app_assoc.
    reflexivity.
Qed.
End ProcessExtras.

Lemma redirect_result_witness :
  fst (redirect (scripted 0 3 0) (str "out.txt") (Z.lor O_WRONLY O_CREAT)
         (str "output") initial) = 0
  /\ new_events initial
       (snd (redirect (scripted 0 3 0) (str "out.txt") (Z.lor O_WRONLY O_CREAT)
               (str "output") initial))
     = [Open (str "out.txt") (Z.lor O_WRONLY O_CREAT) 3; Dup2 3 1 1].
Proof.
  split; [reflexivity|].
  apply (redirect_result (scripted 0 3 0) (str "out.txt")
           (Z.lor O_WRONLY O_CREAT) (str "output") initial).
  reflexivity.
Defined.

(** *** Statuses, as glibc encodes them *)

Lemma glibc_low_bits x : Z.land x 127 = x mod 128.
Proof. change 127 with (Z.ones 7). rewrite Z.land_ones by lia. reflexivity. Qed.

Lemma glibc_exited code :
  0 <= code < 256 ->
  WIFEXITED glibc (code * 256) = true
  /\ WEXITSTATUS glibc (code * 256) = code
  /\ WIFSIGNALED glibc (code * 256) = false.
Proof.
  intros H. cbn [WIFEXITED WEXITSTATUS WIFSIGNALED glibc].
  rewrite glibc_low_bits.
  replace (code * 256) with (code * 2 * 128) by lia.
  rewrite Z_mod_mult. repeat split.
  replace (code * 2 * 128) with (code * 256) by lia.
  rewrite Z.shiftr_land.
  rewrite (Z.shiftr_div_pow2 (code * 256)) by lia.
  change (2 ^ 8) with 256. rewrite Z_div_mult by lia.
  change (Z.shiftr 65280 8) with (Z.ones 8).
  rewrite Z.land_ones by lia. apply Z.mod_small. change (2 ^ 8) with 256. lia.
Qed.

Lemma glibc_signaled sig core :
  1 <= sig < 127 -> core = 0 \/ core = 128 ->
  WIFEXITED glibc (sig + core) = false
  /\ WTERMSIG glibc (sig + core) = sig
  /\ WIFSIGNALED glibc (sig + core) = true.
Proof.
  intros H Hc. cbn [WIFEXITED WTERMSIG WIFSIGNALED glibc].
  rewrite glibc_low_bits.
  assert (E : (sig + core) mod 128 = sig).
  { destruct Hc as [->| ->].
    - rewrite Z.add_0_r. apply Z.mod_small. lia.
    - replace (sig + 128) with (sig + 1 * 128) by lia.
      rewrite Z_mod_plus_full. apply Z.mod_small. lia. }
  rewrite E. split; [apply Z.eqb_neq; lia|]. split; [reflexivity|].
  unfold signed_char. rewrite (Z.mod_small (sig + 1) 256) by lia.
  replace (sig + 1 <? 128) with true by (symmetry; apply Z.ltb_lt; lia).
  apply Z.ltb_lt. rewrite Z.shiftr_div_pow2 by lia. change (2 ^ 1) with 2.
  apply Z.div_str_pos. lia.
Qed.

(** X10: with glibc's macros [print_status] reads back what the kernel
    encodes: the status of a child that exited with code [code] prints as
    [exit value code], the status of a child killed by signal [sig], with
    or without a core dump, as [terminated by signal sig]; in each case it
    is one line and nothing else. *)
Theorem print_status_decodes {K : Type} (s : Shell.state K) code sig core :
  (0 <= code < 256 ->
   new_events s (print_status glibc (code * 256) s)
   = [Write (str "exit value " ++ decimal code ++ [LF])])
  /\ (1 <= sig < 127 -> core = 0 \/ core = 128 ->
      new_events s (print_status glibc (sig + core) s)
      = [Write (str "terminated by signal " ++ decimal sig ++ [LF])]).
Proof.
  split.
  - intros H. destruct (glibc_exited code H) as (E1 & E2 & _).
    unfold print_status. rewrite E1, E2. apply new_events_app. reflexivity.
  - intros H Hc. destruct (glibc_signaled sig core H Hc) as (E1 & E2 & _).
    unfold print_status. rewrite E1, E2. apply new_events_app. reflexivity.
Qed.

Lemma print_status_decodes_witness :
  new_events initial (print_status glibc (2 + 128) initial)
  = [Write (str "terminated by signal 2" ++ [LF])].
Proof.
  apply (print_status_decodes initial 0 2 128); [lia | right; reflexivity].
Defined.

(** *** The forked child *)

(** Membership in an explicit list of events, by cases. *)
Ltac in_events :=
  repeat match goal with
         | H : In _ [] |- _ => destruct H
         | H : In _ (_ :: _) |- _ =>
             destruct H as [H|H];
             [first [discriminate H | inversion H; subst; clear H]|]
         end.

Section ChildExtras.
Context {K : Type} (P : posix K) (W : wait_macros).

Local Abbreviation state := (Shell.state K).

Lemma skipn_prefix {A} (t l : list A) : skipn (length t) (t ++ l) = l.
Proof. rewrite skipn_app, skipn_all, Nat.sub_diag. reflexivity. Qed.

(** Every path through [run_child], with the events it adds spelled out. *)
Ltac child_paths command :=
  let Hbg := fresh "Hbg" in
  let Hin := fresh "Hin" in
  let Hout := fresh "Hout" in
  unfold run_child, redirect, register_signal_handler, new_events;
  destruct (background command =? 0) eqn:Hbg; cbn [negb];
  destruct (input_file command) eqn:Hin;
  destruct (output_file command) eqn:Hout;
  repeat (cbn [input_file output_file args set_input_file set_output_file];
          rewrite ?Hin, ?Hout);
  repeat (sh_simpl;
          match goal with
          | |- context [k_open ?p ?k ?f ?fl ?m] =>
              destruct (k_open p k f fl m) as [? ?]
          | |- context [k_dup2 ?p ?k ?a ?b] =>
              destruct (k_dup2 p k a b) as [? ?]
          | |- context [k_execvp ?p ?k ?f ?a] =>
              destruct (k_execvp p k f a)
          | |- context [if ?z =? -1 then _ else _] =>
              destruct (z =? -1) eqn:?
          | |- context [negb (?z =? 0)] =>
              first [change (negb (z =? 0)) with true
                    | change (negb (z =? 0)) with false]
          end; cbv iota beta);
  sh_simpl; rewrite <- ?app_assoc; rewrite ?skipn_prefix; cbn [app];
  change (O_RDONLY =? Z.lor O_WRONLY O_CREAT) with false;
  change (Z.lor O_WRONLY O_CREAT =? Z.lor O_WRONLY O_CREAT) with true;
  cbv iota.

(** X11: the forked child first sets [SIGTSTP] to be ignored, whatever
    the command; it sets [SIGINT] back to its default action exactly for a
    foreground command; it forks and waits for nothing and leaves the
    registry alone; and it never comes back to the loop of [main]: either
    [execvp] replaces it or it exits with code 1. *)
Theorem child_dispositions command (s : state) :
  hd_error (new_events s (snd (run_child P command s)))
  = Some (Sigaction SIGTSTP SIG_IGN)
  /\ (In (Sigaction SIGINT SIG_DFL) (new_events s (snd (run_child P command s)))
      <-> background command = 0)
  /\ (forall signo d,
        In (Sigaction signo d) (new_events s (snd (run_child P command s))) ->
        (signo = SIGTSTP /\ d = SIG_IGN) \/ (signo = SIGINT /\ d = SIG_DFL))
  /\ waited (new_events s (snd (run_child P command s))) = []
  /\ (forall ret, ~ In (Fork ret) (new_events s (snd (run_child P command s))))
  /\ Shell.background_pids (snd (run_child P command s))
     = Shell.background_pids s
  /\ (fst (run_child P command s) = Replaced
      \/ fst (run_child P command s) = Exits 1).
Proof.
  child_paths command;
    (split; [reflexivity|]);
    (split; [split; [try (intros _; apply Z.eqb_eq; assumption);
                     intros H; in_events
                    | try (intros _; left + (right; left); reflexivity);
                      intros H; apply Z.eqb_neq in Hbg; contradiction]|]);
    (split; [intros signo d H; in_events; auto|]);
    (split; [reflexivity|]);
    (split; [intros ret H; in_events|]);
    (split; [reflexivity | auto]).
Qed.


Lemma run_child_extends command (s : state) :
  Shell.trace (snd (run_child P command s))
  = Shell.trace s ++ new_events s (snd (run_child P command s)).
Proof. child_paths command; reflexivity. Qed.

Lemma run_child_events command (s : state) :
  Forall child_event (new_events s (snd (run_child P command s))).
Proof. child_paths command; repeat constructor. Qed.

Lemma run_child_frame command (s : state) :
  Shell.background (snd (run_child P command s)) = Shell.background s
  /\ Shell.background_pids (snd (run_child P command s))
     = Shell.background_pids s
  /\ Shell.blocked (snd (run_child P command s)) = Shell.blocked s
  /\ Shell.pending (snd (run_child P command s)) = Shell.pending s.
Proof. child_paths command; repeat split. Qed.
End ChildExtras.


(** *** run, path by path *)

Section RunExtras.
Context {K : Type} (P : posix K) (W : wait_macros).

Local Abbreviation state := (Shell.state K).

(** The paths of [run] in the shell process; the child's is left to the
    lemmas on [run_child]. *)
Ltac run_paths command s :=
  let Hk := fresh "Hfork" in
  unfold run, is_external;
  destruct (args command) as [|? ?]; [|
    destruct (streq _ (str "exit")); [|
      destruct (streq _ (str "cd")); [|
        destruct (streq _ (str "status")); [|
          destruct (k_fork P (Shell.kernel s)) as [? ?] eqn:Hk;
          cbn [fst snd orb negb];
          match goal with
          | |- context [?z =? -1] =>
              destruct (z =? -1) eqn:?; [|
                destruct (z =? 0) eqn:?; [|
                  destruct (background command =? 0) eqn:?]]
          end]]]];
  cbn [fst snd orb negb andb].

(** The parent's foreground branch, statement by statement. *)
Ltac foreground_path :=
  unfold do_actions, foreground; cbn [fold_left do_action];
  unfold sigprocmask, waitpid; sh_simpl;
  change (SIG_BLOCK =? SIG_BLOCK) with true;
  change (SIG_UNBLOCK =? SIG_BLOCK) with false;
  change (SIG_UNBLOCK =? SIG_UNBLOCK) with true; cbv iota;
  match goal with
  | |- context [k_waitpid ?p ?k ?a ?b] =>
      let Hw := fresh "Hwait" in
      destruct (k_waitpid p k a b) as [? [? ?]] eqn:Hw;
      cbn [Shell.kernel with_kernel with_blocked log] in Hw;
      try rewrite Hw
  end; sh_simpl.

Ltac foreground_cases :=
  unfold print_status, deliver_sigtstp, handle_sigtstp;
  repeat (sh_simpl;
          match goal with
          | |- context [if ?b then _ else _] => destruct b eqn:?
          end);
  sh_simpl.

Lemma signals_sent_app tr1 tr2 :
  signals_sent (tr1 ++ tr2) = signals_sent tr1 ++ signals_sent tr2.
Proof.
  induction tr1 as [|e tr1 IH]; [reflexivity|].
  destruct e; cbn [app signals_sent]; rewrite ?IH; reflexivity.
Qed.

Lemma child_events_send_nothing evs :
  Forall child_event evs -> signals_sent evs = [].
Proof.
  induction 1 as [|e evs He _ IH]; [reflexivity|].
  destruct e; cbn in He |- *; try contradiction; exact IH.
Qed.

(** [run] sends no signal. *)
Lemma run_signals command (s : state) :
  signals_sent (Shell.trace (snd (run P W command s)))
  = signals_sent (Shell.trace s).
Proof.
  run_paths command s.
  1-5, 8: unfold print_status; sh_simpl;
    repeat match goal with
           | |- context [if ?b then _ else _] => destruct b
           end;
    sh_simpl; rewrite ?signals_sent_app; cbn [signals_sent];
    rewrite ?app_nil_r; reflexivity.
  - rewrite run_child_extends, signals_sent_app.
    rewrite (child_events_send_nothing _ (run_child_events P command _)).
    sh_simpl. rewrite signals_sent_app. cbn [signals_sent].
    rewrite !app_nil_r. reflexivity.
  - foreground_path; foreground_cases; rewrite ?signals_sent_app;
      cbn [signals_sent]; rewrite ?app_nil_r; reflexivity.
Qed.

(** X13: [run] changes the registry in one case only: in the parent of a
    background child it puts the identifier [fork] returned at the head,
    and then it does not wait.  A built-in, a failed [fork], a foreground
    child and the child's own side leave the registry as it was. *)
Theorem run_registry command (s : state) :
  let forked := snd (k_fork P (Shell.kernel s)) in
  let launched :=
    is_external command && negb (background command =? 0)
    && negb (forked =? -1) && negb (forked =? 0) in
  Shell.background_pids (snd (run P W command s))
  = (if launched then forked :: Shell.background_pids s
     else Shell.background_pids s)
  /\ (launched = true -> waited (new_events s (snd (run P W command s))) = []).
Proof.
  cbv zeta. run_paths command s; try (split; [reflexivity | discriminate]).
  - (* status *)
    unfold print_status. destruct (WIFEXITED W (Shell.status s));
      split; [reflexivity | discriminate | reflexivity | discriminate].
  - (* fork failed *)
    rewrite andb_false_r. split; [reflexivity | discriminate].
  - (* the child *)
    rewrite andb_false_r.
    destruct (run_child_frame P command
                (log (with_kernel s k) (Fork z))) as (_ & E & _).
    rewrite E. split; [reflexivity | discriminate].
  - (* the parent of a foreground child *)
    split; [|discriminate]. foreground_path; foreground_cases; reflexivity.
  - (* the parent of a background child *)
    split; [reflexivity|]. intros _. unfold new_events. sh_simpl.
    rewrite <- !app_assoc, skipn_prefix. reflexivity.
Qed.

(** X14: in the shell process Last Status changes in one case only: after
    the wait for a foreground child it is what [waitpid] stored (and what
    it was if the call stored nothing), and that child is the only process
    waited for.  A built-in, a failed [fork] and a background launch leave
    it as it was. *)
Theorem run_last_status command (s : state) :
  let forked := snd (k_fork P (Shell.kernel s)) in
  let awaited :=
    is_external command && (background command =? 0)
    && negb (forked =? -1) && negb (forked =? 0) in
  is_external command = false \/ forked <> 0 ->
  Shell.status (snd (run P W command s))
  = (if awaited
     then match snd (snd (k_waitpid P (fst (k_fork P (Shell.kernel s)))
                            forked 0)) with
          | Some v => v
          | None => Shell.status s
          end
     else Shell.status s)
  /\ (awaited = true ->
      waited (new_events s (snd (run P W command s))) = [forked]).
Proof.
  cbv zeta. run_paths command s; intros Hshell;
    try (split; [reflexivity | discriminate]).
  - (* status *)
    unfold print_status. destruct (WIFEXITED W (Shell.status s));
      split; [reflexivity | discriminate | reflexivity | discriminate].
  - (* fork failed *)
    rewrite !andb_false_r. split; [reflexivity | discriminate].
  - (* the child: not the shell process *)
    exfalso. destruct Hshell as [H|H]; [discriminate|].
    apply H. apply Z.eqb_eq. assumption.
  - (* the parent of a foreground child *)
    unfold new_events. foreground_path; foreground_cases;
      (split; [reflexivity|]); intros _;
      rewrite <- ?app_assoc; rewrite skipn_prefix; reflexivity.
Qed.

(** X15: when no [SIGTSTP] is blocked or pending at the call, none is at
    the return, whatever the command and whatever the kernel answers: the
    mask set around the wait is always cleared again; and [run] itself
    never changes the foreground-only flag. *)
Theorem run_restores_mask command (s : state) :
  Shell.blocked s = false -> Shell.pending s = false ->
  Shell.blocked (snd (run P W command s)) = false
  /\ Shell.pending (snd (run P W command s)) = false
  /\ Shell.background (snd (run P W command s)) = Shell.background s.
Proof.
  intros Hb Hp. run_paths command s; try (repeat split; assumption).
  - unfold print_status. destruct (WIFEXITED W (Shell.status s));
      repeat split; assumption.
  - destruct (run_child_frame P command
                (log (with_kernel s k) (Fork z))) as (E1 & _ & E2 & E3).
    rewrite E1, E2, E3. repeat split; assumption.
  - foreground_path; foreground_cases; repeat split;
      solve [assumption | reflexivity | congruence].
Qed.

Lemma In_child_event e evs :
  Forall child_event evs -> In e evs -> child_event e.
Proof. intros H Hin. rewrite Forall_forall in H. exact (H e Hin). Qed.

(** X16: what [run] asks of the kernel: it forks only for a command that
    is no built-in, and once; it waits only for the child it has just
    forked, in the foreground, with no option; it sends no signal. *)
Theorem run_system_calls command (s : state) :
  let forked := snd (k_fork P (Shell.kernel s)) in
  (forall ret, In (Fork ret) (new_events s (snd (run P W command s))) ->
     is_external command = true /\ ret = forked)
  /\ (forall child options ret,
        In (Waitpid child options ret) (new_events s (snd (run P W command s))) ->
        is_external command = true /\ background command = 0
        /\ child = forked /\ options = 0)
  /\ (forall child signo,
        ~ In (Kill child signo) (new_events s (snd (run P W command s)))).
Proof.
  cbv zeta. run_paths command s.
  1-5, 8: unfold new_events, print_status; sh_simpl;
    repeat match goal with
           | |- context [if ?b then _ else _] => destruct b
           end;
    sh_simpl; rewrite <- ?app_assoc;
    rewrite ?skipn_prefix, ?skipn_all; cbn [app];
    (split; [intros ? H; in_events; auto|]);
    (split; [intros ? ? ? H; in_events|]); intros ? ? H; in_events.
  - (* the child *)
    pose proof (run_child_extends P command (log (with_kernel s k) (Fork z)))
      as E.
    pose proof (run_child_events P command (log (with_kernel s k) (Fork z)))
      as Hev.
    set (evs := new_events _ (snd (run_child _ _ _))) in *.
    assert (En : new_events s
                   (snd (run_child P command (log (with_kernel s k) (Fork z))))
                 = Fork z :: evs).
    { unfold new_events at 1. rewrite E. sh_simpl.
      rewrite <- app_assoc, skipn_prefix. reflexivity. }
    rewrite En.
    split; [intros ret [H|H];
            [inversion H; auto | destruct (In_child_event _ _ Hev H)]|].
    split; [intros ? ? ? [H|H];
            [discriminate | destruct (In_child_event _ _ Hev H)]|].
    intros ? ? [H|H]; [discriminate | destruct (In_child_event _ _ Hev H)].
  - (* the parent of a foreground child *)
    unfold new_events. foreground_path; foreground_cases;
      rewrite <- ?app_assoc; rewrite skipn_prefix; cbn [app];
      (split; [intros ? H; in_events; auto|]);
      (split; [intros ? ? ? H; in_events;
               repeat split; try reflexivity; apply Z.eqb_eq; assumption|]);
      intros ? ? H; in_events.
Qed.
End RunExtras.

Lemma run_registry_witness :
  let command := mk_command [str "sleep"; str "5"] None None 1 in
  Shell.background_pids (snd (run (scripted 77 0 0) glibc command initial))
  = [77]
  /\ waited (new_events initial
               (snd (run (scripted 77 0 0) glibc command initial))) = [].
Proof.
  cbv zeta.
  destruct (run_registry (scripted 77 0 0) glibc
              (mk_command [str "sleep"; str "5"] None None 1) initial)
    as [E H].
  split; [exact E | exact (H eq_refl)].
Defined.

Lemma run_last_status_witness :
  let command := mk_command [str "ls"] None None 0 in
  Shell.status (snd (run (scripted 77 0 256) glibc command initial)) = 256
  /\ waited (new_events initial
               (snd (run (scripted 77 0 256) glibc command initial))) = [77].
Proof.
  cbv zeta.
  destruct (run_last_status (scripted 77 0 256) glibc
              (mk_command [str "ls"] None None 0) initial) as [E H].
  - right. cbn. lia.
  - split; [exact E | exact (H eq_refl)].
Defined.

Lemma run_restores_mask_witness :
  let command := mk_command [str "ls"] None None 0 in
  Shell.blocked (snd (run (scripted 77 0 256) glibc command initial)) = false
  /\ Shell.pending (snd (run (scripted 77 0 256) glibc command initial))
     = false
  /\ Shell.background (snd (run (scripted 77 0 256) glibc command initial))
     = 1.
Proof.
  cbv zeta.
  apply (run_restores_mask (scripted 77 0 256) glibc
           (mk_command [str "ls"] None None 0) initial);
    reflexivity.
Defined.

(** ** More on the registry of background children *)

Section SweepExtras.
Context {K : Type} (P : posix K) (W : wait_macros).

Local Abbreviation state := (Shell.state K).

Lemma reaped_app tr1 tr2 : reaped (tr1 ++ tr2) = reaped tr1 ++ reaped tr2.
Proof.
  induction tr1 as [|e tr1 IH]; [reflexivity|].
  destruct e; cbn [app reaped]; try exact IH.
  destruct (ret =? 0); [exact IH | rewrite IH; reflexivity].
Qed.

Lemma waited_app tr1 tr2 : waited (tr1 ++ tr2) = waited tr1 ++ waited tr2.
Proof.
  induction tr1 as [|e tr1 IH]; [reflexivity|].
  destruct e; cbn [app waited]; rewrite ?IH; reflexivity.
Qed.

Lemma sweep_event_incl pids pids' e :
  incl pids pids' -> sweep_event pids e -> sweep_event pids' e.
Proof.
  intros Hi. destruct e; cbn; try tauto. intros [H1 H2]. split; auto.
Qed.

Lemma sweep_events_send_nothing pids evs :
  Forall (sweep_event pids) evs -> signals_sent evs = [].
Proof.
  induction 1 as [|e evs He _ IH]; [reflexivity|].
  destruct e; cbn in He |- *; try contradiction; exact IH.
Qed.

(** The announcement of one reaped child. *)
Lemma announce_frame pid status (s : state) :
  exists text,
    print_status W status
      (printf (str "background pid " ++ decimal pid ++ str " is done: ") s)
    = log (log s (Write (str "background pid " ++ decimal pid
                           ++ str " is done: ")))
          (Write text).
Proof.
  unfold print_status. destruct (WIFEXITED W status); eexists; reflexivity.
Qed.

(** What a sweep of every node does to the state. *)
Lemma reap_all_frame cur : forall status (s : state),
  exists evs,
    Shell.trace (snd (reap_all P W cur status s)) = Shell.trace s ++ evs
    /\ same_shell s (snd (reap_all P W cur status s))
    /\ Permutation cur (fst (reap_all P W cur status s) ++ reaped evs)
    /\ Forall (sweep_event cur) evs.
Proof.
  induction cur as [|pid next IH]; intros status s.
  - exists []. cbn. rewrite app_nil_r. repeat split; constructor.
  - cbn [reap_all]. unfold waitpid.
    destruct (k_waitpid P (Shell.kernel s) pid WNOHANG) as [k [result stored]].
    set (status' := match stored with Some v => v | None => status end).
    set (s1 := log (with_kernel s k) (Waitpid pid WNOHANG result)).
    destruct (result =? 0) eqn:E; cbn [negb].
    + destruct (IH status' s1) as (evs & Ht & Hs & Hp & Hf).
      destruct (reap_all P W next status' s1) as [l s'].
      cbn [fst snd] in *.
      exists (Waitpid pid WNOHANG result :: evs).
      split; [|split; [|split]].
      * rewrite Ht. subst s1. sh_simpl. rewrite <- app_assoc. reflexivity.
      * apply (same_shell_trans s s1 s'); [repeat split | exact Hs].
      * cbn [reaped]. rewrite E. cbn [app]. constructor. exact Hp.
      * constructor; [cbn; auto|].
        eapply Forall_impl; [|exact Hf].
        intros e. apply sweep_event_incl. apply incl_tl, incl_refl.
    + destruct (announce_frame pid status' s1) as [text ->].
      set (s2 := log (log s1 _) _).
      destruct (IH status' s2) as (evs & Ht & Hs & Hp & Hf).
      exists (Waitpid pid WNOHANG result
              :: Write (str "background pid " ++ decimal pid
                          ++ str " is done: ")
              :: Write text :: evs).
      split; [|split; [|split]].
      * rewrite Ht. subst s2 s1. sh_simpl. rewrite <- !app_assoc. reflexivity.
      * apply (same_shell_trans s s2 _); [repeat split | exact Hs].
      * cbn [reaped]. rewrite E.
        apply Permutation_cons_app. exact Hp.
      * constructor; [cbn; auto|]. constructor; [exact I|].
        constructor; [exact I|].
        eapply Forall_impl; [|exact Hf].
        intros e. apply sweep_event_incl. apply incl_tl, incl_refl.
Qed.

(** The same for the loop as the code has it. *)
Lemma check_background_frame junk pids (s : state) :
  exists evs,
    Shell.trace (snd (check_background P W junk pids s)) = Shell.trace s ++ evs
    /\ same_shell s (snd (check_background P W junk pids s))
    /\ Permutation pids (fst (check_background P W junk pids s) ++ reaped evs)
    /\ Forall (sweep_event pids) evs.
Proof.
  destruct pids as [|pid next].
  { exists []. cbn. rewrite app_nil_r. repeat split; constructor. }
  destruct (Z.eq_dec (fst (fst (waitpid P pid junk WNOHANG s))) 0) as [H0|H0].
  { rewrite (check_background_head_running P W junk pid next s H0).
    apply reap_all_frame. }
  destruct next as [|pid' next'].
  - unfold check_background. cbn [check_loop]. unfold waitpid in *.
    destruct (k_waitpid P (Shell.kernel s) pid WNOHANG) as [k [result stored]].
    cbn [fst] in H0. apply Z.eqb_neq in H0. rewrite H0. cbn [negb].
    destruct (announce_frame pid
                (match stored with Some v => v | None => junk end)
                (log (with_kernel s k) (Waitpid pid WNOHANG result)))
      as [text ->].
    eexists. cbn [fst snd]. sh_simpl. rewrite <- !app_assoc. cbn [app].
    split; [reflexivity|]. split; [repeat split|].
    cbn [reaped]. rewrite H0. cbn.
    split; [constructor; constructor|].
    repeat constructor.
  - rewrite (check_background_head_reaped P W junk pid pid' next' s H0).
    unfold waitpid in *.
    destruct (k_waitpid P (Shell.kernel s) pid WNOHANG) as [k [result stored]].
    cbn [fst] in H0. apply Z.eqb_neq in H0.
    set (status' := match stored with Some v => v | None => junk end).
    set (s1 := log (with_kernel s k) (Waitpid pid WNOHANG result)).
    destruct (announce_frame pid status' s1) as [text ->].
    set (s2 := log (log s1 _) _).
    destruct (reap_all_frame next' status' s2) as (evs & Ht & Hs & Hp & Hf).
    destruct (reap_all P W next' status' s2) as [l s'].
    cbn [fst snd] in *.
    exists (Waitpid pid WNOHANG result
            :: Write (str "background pid " ++ decimal pid
                        ++ str " is done: ")
            :: Write text :: evs).
    split; [|split; [|split]].
    + rewrite Ht. subst s2 s1. sh_simpl. rewrite <- !app_assoc. reflexivity.
    + apply (same_shell_trans s s2 s'); [repeat split | exact Hs].
    + cbn [reaped]. rewrite H0.
      apply (Permutation_cons_app (pid' :: l) (reaped evs) pid).
      cbn [app]. constructor. exact Hp.
    + constructor; [cbn; auto|]. constructor; [exact I|].
      constructor; [exact I|].
      eapply Forall_impl; [|exact Hf].
      intros e. apply sweep_event_incl. apply incl_tl, incl_tl, incl_refl.
Qed.

(** X17: a sweep loses no child and invents none: the registry before it
    is, up to order, the registry it returns together with the children
    whose wait returned non-zero.  It changes neither Last Status, nor the
    foreground-only flag, nor the signal mask. *)
Theorem sweep_conserves_registry junk pids (s : state) :
  Permutation pids
    (fst (check_background P W junk pids s)
     ++ reaped (new_events s (snd (check_background P W junk pids s))))
  /\ same_shell s (snd (check_background P W junk pids s)).
Proof.
  destruct (check_background_frame junk pids s) as (evs & Ht & Hs & Hp & _).
  rewrite (new_events_app _ _ _ Ht). split; assumption.
Qed.

(** X18: a sweep only polls and prints: every wait it makes is for a child
    of the registry and does not hang, and it makes no other system call;
    in particular it sends no signal. *)
Theorem sweep_only_polls junk pids (s : state) :
  Forall (sweep_event pids)
    (new_events s (snd (check_background P W junk pids s)))
  /\ signals_sent (new_events s (snd (check_background P W junk pids s))) = [].
Proof.
  destruct (check_background_frame junk pids s) as (evs & Ht & _ & _ & Hf).
  rewrite (new_events_app _ _ _ Ht).
  split; [exact Hf | exact (sweep_events_send_nothing pids evs Hf)].
Qed.

Lemma check_loop_idle cur : forall kept status (s : state),
  (forall pid k, In pid cur -> fst (snd (k_waitpid P k pid WNOHANG)) = 0) ->
  exists evs,
    Shell.trace (snd (check_loop P W kept cur status s)) = Shell.trace s ++ evs
    /\ fst (check_loop P W kept cur status s) = kept ++ cur
    /\ waited evs = cur
    /\ stdout evs = [].
Proof.
  induction cur as [|pid next IH]; intros kept status s Hidle.
  - exists []. cbn. rewrite !app_nil_r. repeat split.
  - cbn [check_loop]. unfold waitpid.
    pose proof (Hidle pid (Shell.kernel s) (or_introl eq_refl)) as H0.
    destruct (k_waitpid P (Shell.kernel s) pid WNOHANG) as [k [result stored]].
    cbn [fst snd] in H0. subst result. cbn [Z.eqb negb].
    destruct (IH (kept ++ [pid])
                (match stored with Some v => v | None => status end)
                (log (with_kernel s k) (Waitpid pid WNOHANG 0)))
      as (evs & Ht & Hl & Hw & Ho).
    { intros q k' Hq. apply Hidle. right. exact Hq. }
    exists (Waitpid pid WNOHANG 0 :: evs).
    split; [|split; [|split]].
    + rewrite Ht. sh_simpl. rewrite <- app_assoc. reflexivity.
    + rewrite Hl, <- app_assoc. reflexivity.
    + cbn [waited]. rewrite Hw. reflexivity.
    + exact Ho.
Qed.

(** X19: when every child of the registry is still running, that is when
    each wait without hanging returns 0, a sweep waits once for each child
    in order, prints nothing and returns the registry as it was. *)
Theorem sweep_of_running_children junk pids (s : state) :
  (forall pid k, In pid pids -> fst (snd (k_waitpid P k pid WNOHANG)) = 0) ->
  fst (check_background P W junk pids s) = pids
  /\ waited (new_events s (snd (check_background P W junk pids s))) = pids
  /\ stdout (new_events s (snd (check_background P W junk pids s))) = [].
Proof.
  intros Hidle. unfold check_background.
  destruct (check_loop_idle pids [] junk s Hidle) as (evs & Ht & Hl & Hw & Ho).
  rewrite (new_events_app _ _ _ Ht). repeat split; assumption.
Qed.

(** *** Leaving: [free_background_pids] *)

Lemma free_background_pids_frame pids : forall (s : state),
  Shell.trace (free_background_pids P pids s)
  = Shell.trace s ++ map (fun pid => Kill pid SIGKILL) (rev pids)
  /\ same_shell s (free_background_pids P pids s).
Proof.
  induction pids as [|pid next IH]; intros s.
  - cbn. rewrite app_nil_r. repeat split.
  - destruct (IH s) as (Ht & Hs). cbn [free_background_pids rev].
    set (s1 := free_background_pids P next s) in *.
    split.
    + sh_simpl. rewrite Ht, map_app, <- app_assoc. reflexivity.
    + apply (same_shell_trans s s1 _); [exact Hs | repeat split].
Qed.

(** X20: [free_background_pids] sends [SIGKILL] once to every child of the
    registry, the one registered first being killed first (the list holds
    the latest child at its head and is unwound from its end); it does
    nothing else. *)
Theorem free_kills_every_child pids (s : state) :
  new_events s (free_background_pids P pids s)
  = map (fun pid => Kill pid SIGKILL) (rev pids)
  /\ same_shell s (free_background_pids P pids s).
Proof.
  destruct (free_background_pids_frame pids s) as (Ht & Hs).
  rewrite (new_events_app _ _ _ Ht). split; [reflexivity | exact Hs].
Qed.

(** *** The sweep on the nodes *)

(** X21: on a well-formed list of nodes the loop of [check_background]
    follows no dangling pointer and ends within one turn per node; the
    nodes it leaves are again a well-formed list from the new head, and
    the children they hold are, with the children reaped, the ones the
    list held. *)
Theorem sweep_in_memory_is_safe cells fuel h p junk (s : state) :
  (length cells < fuel)%nat ->
  NoDup (map fst cells) ->
  chain h p cells None ->
  exists head' h' cells' s',
    check_background_mem P W fuel h p None p junk s = Some (head', h', s')
    /\ chain h' head' cells' None
    /\ Permutation (map snd cells)
         (map snd cells' ++ reaped (new_events s s'))
    /\ same_shell s s'.
Proof.
  intros Hf Hnd Hc.
  destruct (check_background_mem_refines P W cells fuel h p junk s Hf Hnd Hc)
    as (head' & h' & cells' & E & Hm & Hc').
  destruct (check_background_frame junk (map snd cells) s)
    as (evs & Ht & Hs & Hp & _).
  exists head', h', cells', (snd (check_background P W junk (map snd cells) s)).
  split; [exact E|]. split; [exact Hc'|].
  rewrite (new_events_app _ _ _ Ht), Hm. split; assumption.
Qed.
End SweepExtras.

Lemma sweep_of_running_children_witness :
  fst (check_background (still_running 77) glibc 0 [102; 101] initial) = [102; 101]
  /\ waited (new_events initial
               (snd (check_background (still_running 77) glibc 0 [102; 101]
                       initial))) = [102; 101]
  /\ stdout (new_events initial
               (snd (check_background (still_running 77) glibc 0 [102; 101]
                       initial))) = [].
Proof.
  apply (sweep_of_running_children (still_running 77) glibc 0 [102; 101] initial).
  intros pid k _. reflexivity.
Defined.

Lemma sweep_in_memory_is_safe_witness :
  exists head' h' cells' s',
    check_background_mem (scripted 0 0 0) glibc 3 two_nodes
      (Some 1%nat) None (Some 1%nat) 0 initial = Some (head', h', s')
    /\ chain h' head' cells' None
    /\ Permutation (map snd [(1%nat, 102); (2%nat, 101)])
         (map snd cells' ++ reaped (new_events initial s'))
    /\ same_shell initial s'.
Proof.
  apply (sweep_in_memory_is_safe (scripted 0 0 0) glibc
           [(1%nat, 102); (2%nat, 101)] 3 two_nodes (Some 1%nat) 0 initial).
  - simpl. lia.
  - simpl. repeat constructor; simpl; intuition discriminate.
  - simpl. split; [reflexivity|]. eexists. split; [reflexivity|].
    split; [reflexivity|]. eexists. split; reflexivity.
Defined.

(** ** main *)

Section MainExtras.
Context {K : Type} (P : posix K) (W : wait_macros).

Local Abbreviation state := (Shell.state K).

Lemma parse_skipped bg pid line :
  skipped_line line -> parse bg pid line = Some create_command.
Proof.
  intros [[Hblank Hlen]|Hc]; unfold parse.
  - rewrite (parse_full_blank bg pid line Hblank Hlen). reflexivity.
  - rewrite parse_full_spec, Hc. reflexivity.
Qed.

(** One turn of the loop on a line without a word: the sweep, the prompt,
    and nothing else. *)
Lemma main_iteration_skipped junk line (s : state) :
  skipped_line line ->
  main_iteration P W junk line s
  = Some (Returns 1,
          printf (str ": ")
            (with_background_pids
               (snd (check_background P W junk (Shell.background_pids s) s))
               (fst (check_background P W junk (Shell.background_pids s) s)))).
Proof.
  intros Hs. unfold main_iteration.
  destruct (check_background P W junk (Shell.background_pids s) s)
    as [pids s1].
  cbn [fst snd]. rewrite (parse_skipped _ _ line Hs). reflexivity.
Qed.

(** One turn of the loop sends no signal. *)
Lemma main_iteration_signals junk line (s : state) o s' :
  main_iteration P W junk line s = Some (o, s') ->
  signals_sent (Shell.trace s') = signals_sent (Shell.trace s).
Proof.
  unfold main_iteration.
  destruct (check_background_frame P W junk (Shell.background_pids s) s)
    as (evs & Ht & _ & _ & Hf).
  destruct (check_background P W junk (Shell.background_pids s) s)
    as [pids s1].
  cbn [fst snd] in Ht.
  destruct (parse _ _ line) as [command|]; [|discriminate].
  intros H. injection H as H. apply (f_equal snd) in H. cbn [snd] in H.
  subst s'.
  rewrite run_signals. sh_simpl. rewrite Ht, !signals_sent_app.
  rewrite (sweep_events_send_nothing _ _ Hf). cbn [signals_sent].
  rewrite !app_nil_r. reflexivity.
Qed.

Lemma signals_sent_kills pids :
  signals_sent (map (fun pid => Kill pid SIGKILL) pids)
  = map (fun pid => (pid, SIGKILL)) pids.
Proof.
  induction pids as [|pid pids IH]; [reflexivity|].
  cbn [map signals_sent]. rewrite IH. reflexivity.
Qed.

Lemma main_loop_signals inputs : forall (s : state) code s',
  main_loop P W inputs s = Some (Returned code, s') ->
  code = 0
  /\ signals_sent (Shell.trace s')
     = signals_sent (Shell.trace s)
       ++ map (fun pid => (pid, SIGKILL)) (rev (Shell.background_pids s')).
Proof.
  induction inputs as [|[junk line] rest IH]; intros s code s' H.
  - discriminate.
  - cbn [main_loop] in H.
    destruct (main_iteration P W junk line s) as [[o s1]|] eqn:M;
      [|discriminate].
    apply main_iteration_signals in M.
    destruct o as [running| |]; try discriminate.
    destruct (running =? 0).
    + injection H as <- <-. split; [reflexivity|].
      destruct (free_background_pids_frame P (Shell.background_pids s1) s1)
        as (Ht & _ & _ & Hp & _).
      rewrite Hp, Ht, signals_sent_app, signals_sent_kills, M. reflexivity.
    + destruct (IH s1 code s' H) as [Hc Hs]. split; [exact Hc|].
      rewrite Hs, M. reflexivity.
Qed.

(** X22: the loop of [main] does not end at a line without a word, a blank
    line, a comment, or the empty line left at end of input: it sweeps,
    prompts and reads on.  When no background child is registered such
    lines add one prompt each to the output and change nothing else. *)
Theorem main_reads_on_after_skipped_lines inputs (s : state) :
  Forall (fun l => skipped_line (snd l)) inputs ->
  exists s',
    main_loop P W inputs s = Some (Reading, s')
    /\ (Shell.background_pids s = [] ->
        same_shell s s'
        /\ new_events s s' = repeat (Write (str ": ")) (length inputs)).
Proof.
  intros Hall.
  assert (H : exists s',
             main_loop P W inputs s = Some (Reading, s')
             /\ (Shell.background_pids s = [] ->
                 same_shell s s'
                 /\ Shell.trace s'
                    = Shell.trace s
                      ++ repeat (Write (str ": ")) (length inputs))).
  { revert s. induction inputs as [|[junk line] rest IH]; intros s.
    - exists s. split; [reflexivity|]. intros _.
      split; [apply same_shell_refl|]. cbn. rewrite app_nil_r. reflexivity.
    - inversion Hall as [|? ? Hline Hrest]; subst. cbn [snd] in Hline.
      cbn [main_loop]. rewrite (main_iteration_skipped junk line s Hline).
      cbn [Z.eqb].
      set (s1 := printf _ _).
      destruct (IH Hrest s1) as (s' & E & Hquiet).
      exists s'. split; [exact E|]. intros Hnil.
      assert (E1 : s1 = log s (Write (str ": "))).
      { subst s1. rewrite Hnil. unfold check_background. cbn.
        destruct s; cbn in Hnil; subst; reflexivity. }
      destruct Hquiet as [Hs Ht].
      { rewrite E1. exact Hnil. }
      split.
      + apply (same_shell_trans s s1 s'); [rewrite E1; repeat split | exact Hs].
      + rewrite Ht, E1. sh_simpl. rewrite <- app_assoc. reflexivity. }
  destruct H as (s' & E & Hquiet). exists s'. split; [exact E|].
  intros Hnil. destruct (Hquiet Hnil) as [Hs Ht].
  split; [exact Hs | exact (new_events_app s s' _ Ht)].
Qed.


(** X24: when [main] returns, it returns 0, and the signals it has sent in
    its whole run are one [SIGKILL] to each child still registered, the
    one registered first being killed first. *)
Theorem main_kills_what_is_left inputs k code s' :
  main P W inputs k = Some (Returned code, s') ->
  code = 0
  /\ signals_sent (Shell.trace s')
     = map (fun pid => (pid, SIGKILL)) (rev (Shell.background_pids s')).
Proof.
  unfold main. intros H. apply main_loop_signals in H.
  destruct H as [Hc Hs]. split; [exact Hc|]. rewrite Hs. reflexivity.
Qed.
End MainExtras.

Lemma main_reads_on_after_skipped_lines_witness :
  exists s',
    main_loop (scripted 77 0 0) glibc
      [(0, str "  " ++ [LF]); (0, str "# a comment" ++ [LF]); (0, [])]
      initial = Some (Reading, s')
    /\ (Shell.background_pids initial = [] ->
        same_shell initial s'
        /\ new_events initial s' = repeat (Write (str ": ")) 3).
Proof.
  apply (main_reads_on_after_skipped_lines (scripted 77 0 0) glibc
           [(0, str "  " ++ [LF]); (0, str "# a comment" ++ [LF]); (0, [])]
           initial).
  constructor; [|constructor; [|constructor; [|constructor]]]; cbn [snd].
  - left. split; [repeat constructor | vm_compute; lia].
  - right. reflexivity.
  - left. split; [constructor | vm_compute; lia].
Defined.

Lemma main_kills_what_is_left_witness :
  exists s',
    main (still_running 77) glibc
      [(0, str "sleep 5 &" ++ [LF]); (0, str "exit" ++ [LF])] tt
    = Some (Returned 0, s')
    /\ signals_sent (Shell.trace s') = [(77, SIGKILL)].
Proof.
  eexists.
  match goal with |- ?M /\ _ => assert (H : M) end.
  { vm_compute. reflexivity. }
  split; [exact H|].
  exact (proj2 (main_kills_what_is_left (still_running 77) glibc _ _ _ _ H)).
Defined.

(** ** More on signals during a foreground child *)

Section SignalExtras.
Context {K : Type} (P : posix K) (W : wait_macros).

Local Abbreviation state := (Shell.state K).

Lemma handle_sigtstp_mask signo (s : state) :
  Shell.blocked (handle_sigtstp signo s) = Shell.blocked s
  /\ Shell.pending (handle_sigtstp signo s) = Shell.pending s.
Proof.
  unfold handle_sigtstp, write. sh_simpl.
  destruct (negb (lnot (Shell.background s) =? 0)); split; reflexivity.
Qed.

Lemma fg_step_invariant child_pid cfg cfg' :
  fg_step P W cfg cfg' ->
  fg_invariant child_pid cfg -> fg_invariant child_pid cfg'.
Proof.
  unfold fg_invariant.
  intros Hstep. inversion Hstep as [a acts s|acts s]; subst; cbn [fst snd].
  - (* a statement *)
    intros [[[E|E] [Hb Hp]]|[[E|[E|E]] Hb]]; try discriminate;
      unfold foreground in *; inversion E; subst; cbn [do_action].
    + right. split; [left; reflexivity|]. reflexivity.
    + right. split; [right; left; reflexivity|].
      unfold waitpid.
      destruct (k_waitpid P (Shell.kernel s) child_pid 0) as [k [r st]].
      exact Hb.
    + right. split; [right; right; reflexivity|].
      unfold print_status.
      destruct (WIFSIGNALED W (Shell.status s)); [|exact Hb].
      destruct (WIFEXITED W (Shell.status s)); exact Hb.
    + left. split; [right; reflexivity|].
      unfold sigprocmask.
      change (SIG_UNBLOCK =? SIG_BLOCK) with false.
      change (SIG_UNBLOCK =? SIG_UNBLOCK) with true. cbv iota. sh_simpl.
      destruct (Shell.pending s) eqn:Hp; [|split; [reflexivity | exact Hp]].
      unfold deliver_sigtstp.
      destruct (handle_sigtstp_mask SIGTSTP
                  (log (with_pending
                          (with_blocked (log s (Sigprocmask SIG_UNBLOCK SIGTSTP))
                             false) false) (Handler SIGTSTP))) as [-> ->].
      split; reflexivity.
  - (* a signal *)
    unfold sigtstp_arrives.
    intros [[E [Hb Hp]]|[E Hb]]; rewrite Hb.
    + left. split; [exact E|]. unfold deliver_sigtstp.
      destruct (handle_sigtstp_mask SIGTSTP (log s (Handler SIGTSTP)))
        as [-> ->].
      split; assumption.
    + right. split; [exact E | exact Hb].
Qed.

Lemma fg_steps_invariant child_pid cfg cfg' :
  fg_steps P W cfg cfg' ->
  fg_invariant child_pid cfg -> fg_invariant child_pid cfg'.
Proof.
  induction 1 as [cfg|cfg1 cfg2 cfg3 Hstep _ IH]; [auto|].
  intros H. apply IH. exact (fg_step_invariant _ _ _ Hstep H).
Qed.

(** X25: however many [SIGTSTP] arrive, and wherever, while the parent
    handles a foreground child, once the unblocking statement has run the
    mask is clear and no signal is left pending: a signal deferred during
    the wait has been handled by then. *)
Theorem foreground_leaves_nothing_pending child_pid (s s' : state) :
  fg_steps P W (foreground child_pid, s) ([], s') ->
  Shell.blocked s = false -> Shell.pending s = false ->
  Shell.blocked s' = false /\ Shell.pending s' = false.
Proof.
  intros Hsteps Hb Hp.
  destruct (fg_steps_invariant child_pid _ _ Hsteps) as [[_ H]|[[E|[E|E]] _]];
    try discriminate E; [|exact H].
  left. cbn [fst snd]. auto.
Qed.
End SignalExtras.

Lemma foreground_leaves_nothing_pending_witness :
  Shell.blocked
    (sigtstp_arrives
       (do_actions (scripted 77 0 0) glibc (foreground 77)
          (sigtstp_arrives initial))) = false
  /\ Shell.pending
       (sigtstp_arrives
          (do_actions (scripted 77 0 0) glibc (foreground 77)
             (sigtstp_arrives initial))) = false.
Proof.
  apply (foreground_leaves_nothing_pending (scripted 77 0 0) glibc 77
           (sigtstp_arrives initial)).
  - eapply steps_step; [apply step_action|].
    eapply steps_step; [apply step_action|].
    eapply steps_step; [apply step_action|].
    eapply steps_step; [apply step_action|].
    eapply steps_step; [apply step_signal|]. apply steps_refl.
  - reflexivity.
  - reflexivity.
Defined.
